(** * rps-arduino-io: the Arduino output adapter of the rock-paper-scissors robot

    A shallow embedding of [src/index.ts]: the single-byte command encoder
    ([ArduinoOutput.send]), the three idle animations
    ([TurnWristAnimation], [CycleGesturesAnimation], [FingerWaveAnimation]),
    the idle rotation ([idle], [stopIdleAnimations]) and the game-event
    methods of [ArduinoOutput].

    The program is single-threaded JavaScript.  Its mutable objects are
    collected in one [State] record, methods are programs of a small
    state-and-exception monad, and the Node timer queue is a list of live
    intervals, each with the closure that [setInterval] was given. *)

From Stdlib Require Import ZArith List Bool Lia.
Import ListNotations.
Open Scope Z_scope.

(** ** Command codes *)

Module RPSAction.

(** Modelled from the spec: the enum [RPSAction] is imported from the package
    [rps-stuff], which is not part of the sources; the spec numbers the three
    move codes 0 to 2, in the order rock, paper, scissors. *)
Definition Rock : Z := 0.

(** Modelled from the spec: second move code of the [rps-stuff] enum, which is
    not part of the sources (see [Rock]). *)
Definition Paper : Z := 1.

(** Modelled from the spec: third move code of the [rps-stuff] enum, which is
    not part of the sources (see [Rock]). *)
Definition Scissors : Z := 2.

End RPSAction.
Import RPSAction.

(** The five fingers, in the order of the enum [ArduinoCommand]. *)
Inductive Finger : Type := Thumb | Pointer | Middle | Ring | Pinky.

(** [enum ArduinoCommand]. *)
Inductive ArduinoCommand : Type :=
| TurnWristCmd
| ThumbRelax | ThumbCurl
| PointerRelax | PointerCurl
| MiddleRelax | MiddleCurl
| RingRelax | RingCurl
| PinkyRelax | PinkyCurl.

(** The numeric value of each member of [ArduinoCommand]. *)
Definition code (c : ArduinoCommand) : Z :=
  match c with
  | TurnWristCmd => 4
  | ThumbRelax => 5
  | ThumbCurl => 6
  | PointerRelax => 7
  | PointerCurl => 8
  | MiddleRelax => 9
  | MiddleCurl => 10
  | RingRelax => 11
  | RingCurl => 12
  | PinkyRelax => 13
  | PinkyCurl => 14
  end.

Definition relax (f : Finger) : ArduinoCommand :=
  match f with
  | Thumb => ThumbRelax | Pointer => PointerRelax | Middle => MiddleRelax
  | Ring => RingRelax | Pinky => PinkyRelax
  end.

Definition curl (f : Finger) : ArduinoCommand :=
  match f with
  | Thumb => ThumbCurl | Pointer => PointerCurl | Middle => MiddleCurl
  | Ring => RingCurl | Pinky => PinkyCurl
  end.

(** Position of a finger on the hand, 0 (thumb) to 4 (pinky). *)
Definition finger_index (f : Finger) : Z :=
  match f with
  | Thumb => 0 | Pointer => 1 | Middle => 2 | Ring => 3 | Pinky => 4
  end.

(** The finger after [f] on the hand, the pinky being followed by the thumb. *)
Definition next_finger (f : Finger) : Finger :=
  match f with
  | Thumb => Pointer | Pointer => Middle | Middle => Ring
  | Ring => Pinky | Pinky => Thumb
  end.

(** ** The store *)

(** A timer handle, as returned by [setInterval]. *)
Definition Handle : Type := nat.

(** The closures handed to [setInterval].  Each carries the local variable
    it captured and mutates: [action] in [CycleGesturesAnimation.do],
    [finger] in [FingerWaveAnimation.do]. *)
Inductive Callback : Type :=
| RotateCb
| CycleCb (action : Z)
| FingerCb (finger : Z).

(** The three implementations of [ArduinoIdleAnimation]. *)
Inductive Anim : Type := FingerWave | TurnWrist | CycleGestures.

(** [ArduinoOutput.idleAnimations]. *)
Definition idleAnimations : list Anim := [FingerWave; TurnWrist; CycleGestures].

(** An invocation of one of the two methods of [ArduinoIdleAnimation]. *)
Inductive Call : Type :=
| CallDo (a : Anim)
| CallCleanup (a : Anim).

(** The [ArduinoOutput] object with its three animation objects and the
    timer queue.  [serial] is [None] while [this.serial] is unset, and
    otherwise holds the buffers given to [serial.write], oldest first.
    [calls] is an observation, not a field of the class: the [do] and
    [cleanup] invocations made so far, oldest first. *)
Record State : Type := mkState {
  serial : option (list (list Z));
  idleTimer : option Handle;
  idleCurrent : option Z;
  fw_timer : option Handle;
  cg_timer : option Handle;
  intervals : list (Handle * Callback);
  next_handle : Handle;
  calls : list Call
}.

Definition set_serial (v : option (list (list Z))) (s : State) : State :=
  mkState v (idleTimer s) (idleCurrent s) (fw_timer s) (cg_timer s)
          (intervals s) (next_handle s) (calls s).

Definition set_idleTimer (v : option Handle) (s : State) : State :=
  mkState (serial s) v (idleCurrent s) (fw_timer s) (cg_timer s)
          (intervals s) (next_handle s) (calls s).

Definition set_idleCurrent (v : option Z) (s : State) : State :=
  mkState (serial s) (idleTimer s) v (fw_timer s) (cg_timer s)
          (intervals s) (next_handle s) (calls s).

Definition set_fw_timer (v : option Handle) (s : State) : State :=
  mkState (serial s) (idleTimer s) (idleCurrent s) v (cg_timer s)
          (intervals s) (next_handle s) (calls s).

Definition set_cg_timer (v : option Handle) (s : State) : State :=
  mkState (serial s) (idleTimer s) (idleCurrent s) (fw_timer s) v
          (intervals s) (next_handle s) (calls s).

Definition set_intervals (v : list (Handle * Callback)) (s : State) : State :=
  mkState (serial s) (idleTimer s) (idleCurrent s) (fw_timer s) (cg_timer s)
          v (next_handle s) (calls s).

Definition set_next_handle (v : Handle) (s : State) : State :=
  mkState (serial s) (idleTimer s) (idleCurrent s) (fw_timer s) (cg_timer s)
          (intervals s) v (calls s).

Definition set_calls (v : list Call) (s : State) : State :=
  mkState (serial s) (idleTimer s) (idleCurrent s) (fw_timer s) (cg_timer s)
          (intervals s) (next_handle s) v.

(** The object right after construction: the field initialisers of the
    classes, no timer scheduled. *)
Definition fresh : State :=
  mkState None None None None None [] 0%nat [].

(** The object once [init] has created the serial port. *)
Definition opened : State := set_serial (Some []) fresh.

(** ** The monad of methods *)

(** A method either returns, or throws with the store as it was at the
    throw. *)
Inductive result (A : Type) : Type :=
| Ok (a : A) (s : State)
| Throw (s : State).
Arguments Ok {A} a s.
Arguments Throw {A} s.

Definition M (A : Type) : Type := State -> result A.

Definition ret {A} (a : A) : M A := fun s => Ok a s.

Definition bind {A B} (m : M A) (k : A -> M B) : M B :=
  fun s => match m s with
           | Ok a s' => k a s'
           | Throw s' => Throw s'
           end.

Definition throw {A} : M A := fun s => Throw s.

Definition get {A} (f : State -> A) : M A := fun s => Ok (f s) s.

Definition modify (f : State -> State) : M unit := fun s => Ok tt (f s).

Declare Scope js_scope.
Delimit Scope js_scope with js.
Notation "x <- m ;; k" := (bind m (fun x => k))
  (at level 61, m at next level, right associativity) : js_scope.
Notation "m ;; k" := (bind m (fun _ => k))
  (at level 61, right associativity) : js_scope.
Open Scope js_scope.

(** ** Timers *)

Fixpoint lookup (h : Handle) (l : list (Handle * Callback)) : option Callback :=
  match l with
  | [] => None
  | (h', cb) :: r => if Nat.eqb h' h then Some cb else lookup h r
  end.

(** [setInterval]: the closure joins the queue under a handle never used
    before. *)
Definition setInterval (cb : Callback) : M Handle :=
  h <- get next_handle ;;
  l <- get intervals ;;
  modify (set_intervals (l ++ [(h, cb)])) ;;
  modify (set_next_handle (S h)) ;;
  ret h.

(** [clearInterval]: the interval leaves the queue; clearing a handle that
    is not live does nothing. *)
Definition clearInterval (h : Handle) : M unit :=
  l <- get intervals ;;
  modify (set_intervals (filter (fun e => negb (Nat.eqb (fst e) h)) l)).

(** Writes back the variable captured by the closure of interval [h]. *)
Definition set_cell (h : Handle) (cb : Callback) : M unit :=
  l <- get intervals ;;
  modify (set_intervals
            (map (fun e => if Nat.eqb (fst e) h then (h, cb) else e) l)).

(** ** CommandEncoder *)

(** The conversion a store into an [Int8Array] applies to an integer:
    modulo 2^8, then read as two's complement. *)
Definition toInt8 (n : Z) : Z :=
  let m := n mod 256 in
  if 128 <=? m then m - 256 else m.

(** [ArduinoOutput.send]: a one-element [Int8Array] holding the command, and
    one [serial.write] of its buffer.  [this.serial.write] throws when
    [this.serial] is unset. *)
Definition send (command : Z) : M unit :=
  let commandArray := [toInt8 command] in
  port <- get serial ;;
  match port with
  | Some written => modify (set_serial (Some (written ++ [commandArray])))
  | None => throw
  end.

(** ** The idle animations *)

Definition log_call (c : Call) : M unit :=
  l <- get calls ;;
  modify (set_calls (l ++ [c])).

Definition TurnWristAnimation_do : M unit :=
  send (code TurnWristCmd).

Definition TurnWristAnimation_cleanup : M unit :=
  ret tt.

Definition CycleGesturesAnimation_cleanup : M unit :=
  t <- get cg_timer ;;
  match t with
  | Some h => clearInterval h ;; modify (set_cg_timer None)
  | None => ret tt
  end.

Definition CycleGesturesAnimation_do : M unit :=
  let action := Rock in
  send action ;;
  h <- setInterval (CycleCb action) ;;
  modify (set_cg_timer (Some h)).

Definition FingerWaveAnimation_do : M unit :=
  send Rock ;;
  let finger := 4 in
  h <- setInterval (FingerCb finger) ;;
  modify (set_fw_timer (Some h)).

Definition FingerWaveAnimation_cleanup : M unit :=
  send Paper ;;
  t <- get fw_timer ;;
  match t with
  | Some h => clearInterval h ;; modify (set_fw_timer None)
  | None => ret tt
  end.

(** Dynamic dispatch of [do], recorded in [calls]. *)
Definition anim_do (a : Anim) : M unit :=
  log_call (CallDo a) ;;
  match a with
  | FingerWave => FingerWaveAnimation_do
  | TurnWrist => TurnWristAnimation_do
  | CycleGestures => CycleGesturesAnimation_do
  end.

(** Dynamic dispatch of [cleanup], recorded in [calls]. *)
Definition anim_cleanup (a : Anim) : M unit :=
  log_call (CallCleanup a) ;;
  match a with
  | FingerWave => FingerWaveAnimation_cleanup
  | TurnWrist => TurnWristAnimation_cleanup
  | CycleGestures => CycleGesturesAnimation_cleanup
  end.

(** The closure of [CycleGesturesAnimation.do], run for interval [h] whose
    captured variable holds [action]. *)
Definition cycle_tick (h : Handle) (action : Z) : M unit :=
  let action := action + 1 in
  set_cell h (CycleCb action) ;;
  send action ;;
  if Scissors <=? action then anim_cleanup CycleGestures else ret tt.

(** The closure of [FingerWaveAnimation.do], run for interval [h] whose
    captured variable holds [finger]. *)
Definition finger_tick (h : Handle) (finger : Z) : M unit :=
  send ((if finger <=? 0 then 4 else finger - 1) * 2 + 6) ;;
  let finger := finger + 1 in
  let finger := Z.rem finger 5 in
  set_cell h (FingerCb finger) ;;
  send (finger * 2 + 5).

(** ** ArduinoOutput *)

(** The number a nullable numeric field denotes in arithmetic: [null]
    counts as 0. *)
Definition num (v : option Z) : Z :=
  match v with Some z => z | None => 0 end.

(** [this.idleAnimations[i]], followed by a method call: throws when the
    index is [null] or outside the array. *)
Definition anim_at (i : option Z) : M Anim :=
  match i with
  | Some z =>
      if z <? 0 then throw
      else match nth_error idleAnimations (Z.to_nat z) with
           | Some a => ret a
           | None => throw
           end
  | None => throw
  end.

Definition stopIdleAnimations : M unit :=
  cur <- get idleCurrent ;;
  match cur with
  | Some _ =>
      a <- anim_at cur ;;
      anim_cleanup a ;;
      modify (set_idleCurrent None)
  | None => ret tt
  end ;;
  t <- get idleTimer ;;
  match t with
  | Some h => clearInterval h ;; modify (set_idleTimer None)
  | None => ret tt
  end.

(** The closure [idle] hands to [setInterval]: one step of the rotation. *)
Definition rotate : M unit :=
  cur <- get idleCurrent ;;
  match cur with
  | Some _ => a <- anim_at cur ;; anim_cleanup a
  | None => modify (set_idleCurrent (Some (-1)))
  end ;;
  cur <- get idleCurrent ;;
  modify (set_idleCurrent (Some (num cur + 1))) ;;
  cur <- get idleCurrent ;;
  modify (set_idleCurrent
            (Some (Z.rem (num cur) (Z.of_nat (length idleAnimations))))) ;;
  cur <- get idleCurrent ;;
  a <- anim_at cur ;;
  anim_do a.

Definition idle : M unit :=
  send Paper ;;
  t <- get idleTimer ;;
  match t with
  | None =>
      h <- setInterval RotateCb ;;
      modify (set_idleTimer (Some h))
  | Some _ => ret tt
  end.

Definition countdown (state : Z) : M unit := send (code TurnWristCmd).

Definition shoot (action : Z) : M unit := send action.

Definition gameStart : M unit :=
  stopIdleAnimations ;;
  send Rock.

Definition tryAgain : M unit := ret tt.

Definition robotWin (robot human : Z) : M unit := send Rock.

Definition humanWin (robot human : Z) : M unit := send Rock.

Definition tie (action : Z) : M unit := send Rock.

Definition score (robot human : Z) : M unit := ret tt.

Definition gameStop : M unit := send Paper.

(** ** Runs *)

(** What can happen to the object: a method call by the game engine, or the
    timer queue firing a live interval. *)
Inductive Event : Type :=
| EIdle
| ECountdown (state : Z)
| EShoot (action : Z)
| EGameStart
| ETryAgain
| ERobotWin (robot human : Z)
| EHumanWin (robot human : Z)
| ETie (action : Z)
| EScore (robot human : Z)
| EGameStop
| EStopIdleAnimations
| ETick (h : Handle).

(** Firing interval [h] runs its closure. *)
Definition fire (h : Handle) : M unit :=
  l <- get intervals ;;
  match lookup h l with
  | Some RotateCb => rotate
  | Some (CycleCb action) => cycle_tick h action
  | Some (FingerCb finger) => finger_tick h finger
  | None => ret tt
  end.

Definition is_tick (e : Event) : bool :=
  match e with ETick _ => true | _ => false end.

Definition is_idle (e : Event) : bool :=
  match e with EIdle => true | _ => false end.

(** Only a live interval fires; methods can be called at any time. *)
Definition enabled (s : State) (e : Event) : bool :=
  match e with
  | ETick h => match lookup h (intervals s) with Some _ => true | None => false end
  | _ => true
  end.

Definition step (e : Event) : M unit :=
  match e with
  | EIdle => idle
  | ECountdown st => countdown st
  | EShoot a => shoot a
  | EGameStart => gameStart
  | ETryAgain => tryAgain
  | ERobotWin r h => robotWin r h
  | EHumanWin r h => humanWin r h
  | ETie a => tie a
  | EScore r h => score r h
  | EGameStop => gameStop
  | EStopIdleAnimations => stopIdleAnimations
  | ETick h => fire h
  end.

(** A run: the events happen one after the other, each to completion.  The
    run is [None] when an event was not enabled or when one threw (an
    uncaught exception ends the Node process). *)
Fixpoint run (s : State) (evs : list Event) : option State :=
  match evs with
  | [] => Some s
  | e :: r =>
      if enabled s e then
        match step e s with
        | Ok _ s' => run s' r
        | Throw _ => None
        end
      else None
  end.

(** The commands written to the port so far: the bytes of all buffers. *)
Definition written (s : State) : list Z :=
  match serial s with
  | Some w => concat w
  | None => []
  end.

Definition anim_eqb (a b : Anim) : bool :=
  match a, b with
  | FingerWave, FingerWave | TurnWrist, TurnWrist
  | CycleGestures, CycleGestures => true
  | _, _ => false
  end.

(** The effect of one invocation on the animations in progress: [do] adds
    one, [cleanup] ends all those of its animation. *)
Definition after_call (act : list Anim) (c : Call) : list Anim :=
  match c with
  | CallDo a => a :: act
  | CallCleanup a => filter (fun b => negb (anim_eqb b a)) act
  end.

(** The animations that were started and not stopped since, after the
    invocations [l]. *)
Definition running (l : list Call) : list Anim :=
  fold_left after_call l [].



(** The store after the bytes [cmds] were written, one buffer each. *)
Definition emit (cmds : list Z) (s : State) : State :=
  set_serial (option_map (fun w => w ++ map (fun c => [c]) cmds) (serial s)) s.

(** The finger before [f] on the hand, the thumb being preceded by the
    pinky. *)
Definition prev_finger (f : Finger) : Finger :=
  match f with
  | Thumb => Pinky | Pointer => Thumb | Middle => Pointer
  | Ring => Middle | Pinky => Ring
  end.

(** The bytes of [n] steps of the finger wave, the index standing at finger
    [f]: each step curls the finger before the index and relaxes the finger
    after it, which the index then moves to. *)
Fixpoint wave (f : Finger) (n : nat) : list Z :=
  match n with
  | O => []
  | S n' =>
      code (curl (prev_finger f)) :: code (relax (next_finger f))
      :: wave (next_finger f) n'
  end.

(** Every handle of the queue was handed out before [n]. *)
Definition handles_below (n : Handle) (l : list (Handle * Callback)) : Prop :=
  Forall (fun e => (fst e < n)%nat) l.

(** The invocation history [l] never had two animations started and not
    yet stopped: at every point of it at most one was running. *)
Definition calm (l : list Call) : Prop :=
  forall p q, l = p ++ q -> (length (running p) <= 1)%nat.

(** The stores the object can be in once the port is open.  Either nothing
    is scheduled; or the rotation interval [h0] is live and no animation was
    started yet; or it is live together with the animation at [idleCurrent]:
    the finger wave with its interval [h1], the wrist turn, the gesture cycle
    with its interval [h2], or the gesture cycle after it ended itself. *)
Inductive Inv : State -> Prop :=
| Inv_off w n cl :
    calm cl -> running cl = [] ->
    Inv (mkState (Some w) None None None None [] n cl)
| Inv_waiting w h0 n cl :
    (h0 < n)%nat -> calm cl -> running cl = [] ->
    Inv (mkState (Some w) (Some h0) None None None [(h0, RotateCb)] n cl)
| Inv_wave w h0 h1 f n cl :
    (h0 < h1 < n)%nat -> 0 <= f < 5 ->
    calm cl -> running cl = [FingerWave] ->
    Inv (mkState (Some w) (Some h0) (Some 0) (Some h1) None
                 [(h0, RotateCb); (h1, FingerCb f)] n cl)
| Inv_wrist w h0 n cl :
    (h0 < n)%nat -> calm cl -> running cl = [TurnWrist] ->
    Inv (mkState (Some w) (Some h0) (Some 1) None None [(h0, RotateCb)] n cl)
| Inv_cycle w h0 h2 a n cl :
    (h0 < h2 < n)%nat -> 0 <= a < 2 ->
    calm cl -> running cl = [CycleGestures] ->
    Inv (mkState (Some w) (Some h0) (Some 2) None (Some h2)
                 [(h0, RotateCb); (h2, CycleCb a)] n cl)
| Inv_cycle_done w h0 n cl :
    (h0 < n)%nat -> calm cl -> running cl = [] ->
    Inv (mkState (Some w) (Some h0) (Some 2) None None [(h0, RotateCb)] n cl).

Definition not_idle (e : Event) : bool := negb (is_idle e).

Definition not_tick (e : Event) : bool := negb (is_tick e).

(** The part of the [async] method [ArduinoOutput.cleanup] that runs at the
    call, up to its first [await]: the idle rotation is stopped and [Paper]
    is sent.  What follows the [await] (closing the port through the
    serialport library, then unsetting [this.serial]) is not modelled. *)
Definition ArduinoOutput_cleanup_sync : M unit :=
  stopIdleAnimations ;;
  send Paper.

(** The game events that only pass a command on: every method of
    [RPSOutput] the class implements except [idle] and [gameStart]. *)
Definition plain_event (e : Event) : bool :=
  match e with
  | ECountdown _ | EShoot _ | ETryAgain | ERobotWin _ _ | EHumanWin _ _
  | ETie _ | EScore _ _ | EGameStop => true
  | EIdle | EGameStart | EStopIdleAnimations | ETick _ => false
  end.

(** The bytes the method behind a game event hands to [send]. *)
Definition event_bytes (e : Event) : list Z :=
  match e with
  | ECountdown _ => [toInt8 (code TurnWristCmd)]
  | EShoot action => [toInt8 action]
  | ERobotWin _ _ | EHumanWin _ _ | ETie _ => [toInt8 Rock]
  | EGameStop => [toInt8 Paper]
  | _ => []
  end.

(** A byte with a meaning in the protocol: a move code, the wrist turn or a
    finger code. *)
Definition protocol_byte (b : Z) : bool :=
  (0 <=? b) && (b <=? 14) && negb (b =? 3).

(** The event passes only members of [RPSAction] to the object. *)
Definition move_event (e : Event) : bool :=
  match e with
  | EShoot action => (Rock <=? action) && (action <=? Scissors)
  | _ => true
  end.

(** ** Evaluating methods on a symbolic store *)

Create HintDb js discriminated.

#[local] Hint Unfold
  step fire idle countdown shoot gameStart tryAgain robotWin humanWin tie
  score gameStop stopIdleAnimations rotate anim_at anim_do anim_cleanup
  cycle_tick finger_tick
  FingerWaveAnimation_do FingerWaveAnimation_cleanup
  CycleGesturesAnimation_do CycleGesturesAnimation_cleanup
  TurnWristAnimation_do TurnWristAnimation_cleanup
  log_call send setInterval clearInterval set_cell
  bind ret get modify throw emit
  set_serial set_idleTimer set_idleCurrent set_fw_timer set_cg_timer
  set_intervals set_next_handle set_calls : js.

Ltac js_eval := autounfold with js; simpl.
Ltac js_eval_in H := autounfold with js in H; simpl in H.

(** ** CommandEncoder: one signed byte per call *)

Lemma toInt8_range (n : Z) : -128 <= toInt8 n <= 127.
Proof.
  unfold toInt8.
  pose proof (Z.mod_pos_bound n 256 ltac:(lia)) as Hm.
  destruct (128 <=? n mod 256) eqn:E.
  - apply Z.leb_le in E. lia.
  - apply Z.leb_gt in E. lia.
Qed.

Lemma toInt8_congruent (n : Z) : exists k, toInt8 n = n + 256 * k.
Proof.
  unfold toInt8.
  pose proof (Z.div_mod n 256 ltac:(lia)) as Hd.
  destruct (128 <=? n mod 256).
  - exists (- (n / 256) - 1). lia.
  - exists (- (n / 256)). lia.
Qed.

Lemma toInt8_in_range (n : Z) : -128 <= n <= 127 -> toInt8 n = n.
Proof.
  intros Hn. unfold toInt8.
  destruct (Z_lt_le_dec n 0) as [Hneg | Hpos].
  - assert (Hm : n mod 256 = n + 256).
    { symmetry. apply (Z.mod_unique n 256 (-1)); lia. }
    rewrite Hm.
    destruct (128 <=? n + 256) eqn:E; [lia | apply Z.leb_gt in E; lia].
  - rewrite Z.mod_small by lia.
    destruct (128 <=? n) eqn:E; [apply Z.leb_le in E; lia | reflexivity].
Qed.

Lemma send_connected (command : Z) (s : State) (w : list (list Z)) :
  serial s = Some w -> send command s = Ok tt (emit [toInt8 command] s).
Proof.
  intros H. destruct s; simpl in H; subst. reflexivity.
Qed.

(** C10.  For every integer command and every store whose port is open,
    [send] returns after exactly one write, of a buffer of exactly one byte;
    nothing else in the store changes.  The byte is the command reduced
    modulo 2^8 into -128..127, so a command already in that range is written
    unchanged. *)
Theorem send_writes_one_signed_byte :
  forall (command : Z) (s : State) (w : list (list Z)),
    serial s = Some w ->
    send command s = Ok tt (set_serial (Some (w ++ [[toInt8 command]])) s)
    /\ -128 <= toInt8 command <= 127
    /\ (exists k, toInt8 command = command + 256 * k)
    /\ (-128 <= command <= 127 -> toInt8 command = command).
Proof.
  intros command s w H. split; [| split; [| split]].
  - destruct s; simpl in H; subst. reflexivity.
  - apply toInt8_range.
  - apply toInt8_congruent.
  - apply toInt8_in_range.
Qed.

Lemma send_writes_one_signed_byte_witness :
  serial opened = Some []
  /\ send 300 opened = Ok tt (set_serial (Some ([] ++ [[toInt8 300]])) opened)
  /\ toInt8 300 = 44.
Proof.
  split; [reflexivity |].
  split; [| reflexivity].
  exact (proj1 (send_writes_one_signed_byte 300 opened [] eq_refl)).
Defined.

(** ** The protocol numbering *)

(** C5, as stated, fails: the wrist-turn command is not 3, the countdown
    pulse writes the byte 4, and the last finger code is 14, outside
    4..13. *)
Lemma wrist_turn_is_not_3 :
  ~ (code TurnWristCmd = 3
     /\ forall f, 4 <= code (relax f) <= 13 /\ 4 <= code (curl f) <= 13)
  /\ countdown 0 opened = Ok tt (emit [4] opened)
  /\ code PinkyCurl = 14.
Proof.
  split; [| split; reflexivity].
  intros [H _]. discriminate H.
Qed.

(** C5, amended.  The move codes are 0, 1 and 2; the wrist-turn command is 4
    and it is the byte a countdown tick writes; the finger codes are exactly
    5..14, finger number i (thumb 0 to pinky 4) having the odd code 2i+5 for
    relax and the even code 2i+6 for curl; no command has the value 3. *)
Theorem protocol_numbering :
  (Rock = 0 /\ Paper = 1 /\ Scissors = 2)
  /\ code TurnWristCmd = 4
  /\ (forall st s w, serial s = Some w -> countdown st s = Ok tt (emit [4] s))
  /\ (forall f, code (relax f) = 2 * finger_index f + 5
                /\ code (curl f) = 2 * finger_index f + 6)
  /\ (forall c, c <> TurnWristCmd -> 5 <= code c <= 14)
  /\ (forall n, 5 <= n <= 14 -> exists c, c <> TurnWristCmd /\ code c = n)
  /\ (forall c, code c <> 3)
  /\ (forall c c', code c = code c' -> c = c').
Proof.
  split; [repeat split |].
  split; [reflexivity |].
  split; [intros st s w H; exact (send_connected (code TurnWristCmd) s w H) |].
  split; [intros f; destruct f; split; reflexivity |].
  split; [intros c Hc; destruct c; simpl; try lia; congruence |].
  split.
  { intros n Hn.
    assert (Hc : n = 5 \/ n = 6 \/ n = 7 \/ n = 8 \/ n = 9 \/ n = 10
                 \/ n = 11 \/ n = 12 \/ n = 13 \/ n = 14) by lia.
    repeat (destruct Hc as [Hc | Hc]); subst n;
      [ exists ThumbRelax | exists ThumbCurl | exists PointerRelax
      | exists PointerCurl | exists MiddleRelax | exists MiddleCurl
      | exists RingRelax | exists RingCurl | exists PinkyRelax
      | exists PinkyCurl ]; (split; [discriminate | reflexivity]). }
  split; [intros c; destruct c; discriminate |].
  intros c c'; destruct c, c'; simpl; intros H; try reflexivity; discriminate H.
Qed.

Lemma protocol_numbering_witness :
  countdown 3 opened = Ok tt (emit [4] opened).
Proof.
  destruct protocol_numbering as (_ & _ & H & _).
  exact (H 3 opened [] eq_refl).
Defined.

(** ** Game events *)

(** C8, as stated, fails on [shoot]: the byte it writes is the action it is
    given, so two actions give two different bytes. *)
Lemma shoot_depends_on_action :
  exists s1 s2,
    shoot Rock opened = Ok tt s1 /\ shoot Paper opened = Ok tt s2
    /\ written s1 = [0] /\ written s2 = [1] /\ written s1 <> written s2.
Proof.
  exists (emit [0] opened), (emit [1] opened).
  repeat split; discriminate.
Qed.

(** C8, amended.  With the port open, [robotWin], [humanWin] and [tie] each
    write the one byte [Rock] whatever their arguments are; [shoot] writes
    the byte of the action it is given; [score] writes nothing and leaves
    the store as it is. *)
Theorem outcome_events_send_fixed_command :
  forall (s : State) (w : list (list Z)),
    serial s = Some w ->
    (forall robot human, robotWin robot human s = Ok tt (emit [Rock] s))
    /\ (forall robot human, humanWin robot human s = Ok tt (emit [Rock] s))
    /\ (forall action, tie action s = Ok tt (emit [Rock] s))
    /\ (forall action, shoot action s = Ok tt (emit [toInt8 action] s))
    /\ (forall robot human, score robot human s = Ok tt s).
Proof.
  intros s w H. repeat split; intros;
    try (unfold robotWin, humanWin, tie, shoot;
         rewrite (send_connected _ s w H); reflexivity).
Qed.

Lemma outcome_events_send_fixed_command_witness :
  robotWin Rock Scissors opened = Ok tt (emit [Rock] opened)
  /\ robotWin Paper Rock opened = Ok tt (emit [Rock] opened)
  /\ shoot Scissors opened = Ok tt (emit [2] opened).
Proof.
  pose proof (outcome_events_send_fixed_command opened [] eq_refl)
    as (Hr & _ & _ & Hs & _).
  split; [apply Hr | split; [apply Hr | apply Hs]].
Defined.

(** ** Entering idle mode *)

(** C6, as stated, fails: with the rotation timer already there, [idle]
    still writes a byte. *)
Lemma idle_again_still_sends :
  exists s s',
    run opened [EIdle] = Some s /\ idleTimer s <> None
    /\ idle s = Ok tt s' /\ s' <> s
    /\ written s' = written s ++ [Paper].
Proof.
  eexists. eexists.
  split; [reflexivity |].
  split; [discriminate |].
  split; [reflexivity |].
  split; [discriminate | reflexivity].
Qed.

(** C6, amended.  With the port open, [idle] always writes the byte [Paper]
    first.  If the rotation timer exists, that is all it does: no second
    timer is created.  Otherwise it then schedules the rotation closure
    under a new handle and keeps that handle in [idleTimer]. *)
Theorem idle_sends_then_starts_timer_once :
  forall (s : State) (w : list (list Z)),
    serial s = Some w ->
    (idleTimer s <> None -> idle s = Ok tt (emit [Paper] s))
    /\ (idleTimer s = None ->
        idle s =
        Ok tt (set_idleTimer (Some (next_handle s))
                 (set_next_handle (S (next_handle s))
                    (set_intervals (intervals s ++ [(next_handle s, RotateCb)])
                       (emit [Paper] s))))).
Proof.
  intros s w H. destruct s as [ser it ic fw cg iv nh cl].
  simpl in H; subst ser. split; intros Ht; simpl in Ht.
  - destruct it as [h |]; [reflexivity | congruence].
  - subst it. reflexivity.
Qed.

Lemma idle_sends_then_starts_timer_once_witness :
  idle opened =
  Ok tt (set_idleTimer (Some 0%nat)
           (set_next_handle 1%nat
              (set_intervals [(0%nat, RotateCb)] (emit [Paper] opened)))).
Proof.
  exact (proj2 (idle_sends_then_starts_timer_once opened [] eq_refl) eq_refl).
Defined.

(** ** The timer queue *)

Lemma lookup_cleared (h : Handle) (l : list (Handle * Callback)) :
  lookup h (filter (fun e => negb (Nat.eqb (fst e) h)) l) = None.
Proof.
  induction l as [| [h' cb] l IH]; simpl; [reflexivity |].
  destruct (Nat.eqb h' h) eqn:E; simpl; [exact IH |].
  rewrite E. exact IH.
Qed.

Lemma lookup_kept (h h' : Handle) (l : list (Handle * Callback)) :
  h' <> h ->
  lookup h' (filter (fun e => negb (Nat.eqb (fst e) h)) l) = lookup h' l.
Proof.
  intros Hn. induction l as [| [k cb] l IH]; simpl; [reflexivity |].
  destruct (Nat.eqb_spec k h) as [-> | Hk]; simpl.
  - destruct (Nat.eqb_spec h h'); [congruence | exact IH].
  - destruct (Nat.eqb k h'); [reflexivity | exact IH].
Qed.

Lemma lookup_filter_none (h : Handle) (p : Handle * Callback -> bool)
      (l : list (Handle * Callback)) :
  lookup h l = None -> lookup h (filter p l) = None.
Proof.
  induction l as [| [k cb] l IH]; simpl; [reflexivity |].
  destruct (Nat.eqb k h) eqn:E; [discriminate |].
  intros H. destruct (p (k, cb)); simpl; [rewrite E |]; exact (IH H).
Qed.

(** ** Stopping an animation *)

(** C9, as stated, fails on [FingerWaveAnimation]: its [cleanup], called on
    an animation that was never started, writes a byte. *)
Lemma fingerwave_cleanup_sends_when_never_started :
  fw_timer opened = None
  /\ FingerWaveAnimation_cleanup opened = Ok tt (emit [Paper] opened)
  /\ written (emit [Paper] opened) <> written opened.
Proof.
  split; [reflexivity |]. split; [reflexivity | discriminate].
Qed.

(** C9, amended.  In every store, [cleanup] of [TurnWristAnimation] changes
    nothing, and [cleanup] of [CycleGesturesAnimation] writes nothing, takes
    the interval it owns out of the timer queue and leaves the others in,
    changes nothing when no timer is owned, and changes nothing when
    repeated.  [cleanup] of [FingerWaveAnimation], with the port open, writes
    the byte [Paper] on every call, also when never started or already
    stopped; it takes the interval it owns out of the timer queue and leaves
    the others in, and apart from the byte it changes nothing when no timer
    is owned or when repeated. *)
Theorem cleanup_is_repeatable :
  forall s : State,
    TurnWristAnimation_cleanup s = Ok tt s
    /\ (exists s1,
          CycleGesturesAnimation_cleanup s = Ok tt s1
          /\ serial s1 = serial s
          /\ cg_timer s1 = None
          /\ (forall h, cg_timer s = Some h ->
                lookup h (intervals s1) = None
                /\ forall h', h' <> h ->
                     lookup h' (intervals s1) = lookup h' (intervals s))
          /\ (cg_timer s = None -> s1 = s)
          /\ CycleGesturesAnimation_cleanup s1 = Ok tt s1)
    /\ (forall w, serial s = Some w ->
        exists s1,
          FingerWaveAnimation_cleanup s = Ok tt s1
          /\ written s1 = written s ++ [Paper]
          /\ fw_timer s1 = None
          /\ (forall h, fw_timer s = Some h ->
                lookup h (intervals s1) = None
                /\ forall h', h' <> h ->
                     lookup h' (intervals s1) = lookup h' (intervals s))
          /\ (fw_timer s = None -> s1 = emit [Paper] s)
          /\ FingerWaveAnimation_cleanup s1 = Ok tt (emit [Paper] s1)).
Proof.
  intros s. destruct s as [ser it ic fw cg iv nh cl].
  split; [reflexivity |]. split.
  - destruct cg as [h |]; js_eval; eexists;
      (split; [reflexivity |]); (split; [reflexivity |]);
      (split; [reflexivity |]); simpl; (split; [| split; [| reflexivity]]);
      try discriminate; try reflexivity.
    intros k Hk. injection Hk as <-.
    split; [apply lookup_cleared | intros h' Hn; now apply lookup_kept].
  - intros w H. simpl in H; subst ser.
    destruct fw as [h |]; js_eval; eexists;
      (split; [reflexivity |]); unfold written; simpl;
      rewrite !concat_app; simpl;
      (split; [reflexivity |]); (split; [reflexivity |]);
      (split; [| split; [| reflexivity]]);
      try discriminate; try reflexivity.
    intros k Hk. injection Hk as <-.
    split; [apply lookup_cleared | intros h' Hn; now apply lookup_kept].
Qed.

Lemma cleanup_is_repeatable_witness :
  exists s s1,
    FingerWaveAnimation_do opened = Ok tt s
    /\ fw_timer s = Some 0%nat
    /\ enabled s (ETick 0%nat) = true
    /\ FingerWaveAnimation_cleanup s = Ok tt s1
    /\ written s1 = written s ++ [Paper]
    /\ fw_timer s1 = None
    /\ lookup 0%nat (intervals s1) = None
    /\ enabled s1 (ETick 0%nat) = false
    /\ FingerWaveAnimation_cleanup s1 = Ok tt (emit [Paper] s1).
Proof.
  pose (s := mkState (Some [[Rock]]) None None (Some 0%nat) None
                     [(0%nat, FingerCb 4)] 1%nat []).
  destruct (proj2 (proj2 (cleanup_is_repeatable s)) [[Rock]] eq_refl)
    as (s1 & H1 & H2 & H3 & H4 & _ & H6).
  destruct (H4 0%nat eq_refl) as [H5 _].
  exists s, s1.
  split; [reflexivity |]. split; [reflexivity |]. split; [reflexivity |].
  split; [exact H1 |]. split; [exact H2 |]. split; [exact H3 |].
  split; [exact H5 |].
  split; [simpl; now rewrite H5 | exact H6].
Defined.

(** ** The timer queue under a new handle *)

Lemma lookup_below (n : Handle) (l : list (Handle * Callback)) :
  handles_below n l -> lookup n l = None.
Proof.
  induction 1 as [| [h cb] l Hh _ IH]; simpl; [reflexivity |].
  simpl in Hh. destruct (Nat.eqb_spec h n); [lia | exact IH].
Qed.

Lemma lookup_new (n : Handle) (l : list (Handle * Callback)) (cb : Callback) :
  handles_below n l -> lookup n (l ++ [(n, cb)]) = Some cb.
Proof.
  induction 1 as [| [h c] l Hh _ IH]; simpl.
  - now rewrite Nat.eqb_refl.
  - simpl in Hh. destruct (Nat.eqb_spec h n); [lia | exact IH].
Qed.

Lemma set_cell_new (n : Handle) (l : list (Handle * Callback))
      (cb cb' : Callback) :
  handles_below n l ->
  map (fun e => if Nat.eqb (fst e) n then (n, cb') else e) (l ++ [(n, cb)])
  = l ++ [(n, cb')].
Proof.
  induction 1 as [| [h c] l Hh _ IH]; simpl.
  - now rewrite Nat.eqb_refl.
  - simpl in Hh. destruct (Nat.eqb_spec h n); [lia | now rewrite IH].
Qed.

Lemma clear_new (n : Handle) (l : list (Handle * Callback)) (cb : Callback) :
  handles_below n l ->
  filter (fun e => negb (Nat.eqb (fst e) n)) (l ++ [(n, cb)]) = l.
Proof.
  induction 1 as [| [h c] l Hh _ IH]; simpl.
  - now rewrite Nat.eqb_refl.
  - simpl in Hh. destruct (Nat.eqb_spec h n); [lia | simpl; now rewrite IH].
Qed.

Lemma lookup_set_cell (h : Handle) (l : list (Handle * Callback))
      (cb cb' : Callback) :
  lookup h l = Some cb ->
  lookup h (map (fun e => if Nat.eqb (fst e) h then (h, cb') else e) l)
  = Some cb'.
Proof.
  induction l as [| [h' c] l IH]; simpl; [discriminate |].
  destruct (Nat.eqb h' h) eqn:E; simpl.
  - intros _. now rewrite Nat.eqb_refl.
  - rewrite E. exact IH.
Qed.

Lemma written_emit (cmds : list Z) (s : State) :
  serial s <> None -> written (emit cmds s) = written s ++ cmds.
Proof.
  destruct s as [[w |] it ic fw cg iv nh cl];
    [intros _ | intros H; now elim H].
  unfold written, emit. simpl. rewrite concat_app. f_equal.
  induction cmds as [| c r IH]; simpl; [reflexivity | now rewrite IH].
Qed.

(** ** The gesture cycle *)

(** C3.  In a store with the port open and a well-formed timer queue,
    [CycleGesturesAnimation.do] writes [Rock] and schedules its interval;
    the first firing writes [Paper] and leaves the interval live; the second
    writes [Scissors] and clears the interval, so that it cannot fire again
    and the animation owns no timer, without any call from outside.  In all
    exactly the three bytes rock, paper, scissors were written, in this
    order. *)
Theorem cycle_gestures_runs_once :
  forall (s : State) (w : list (list Z)),
    serial s = Some w ->
    handles_below (next_handle s) (intervals s) ->
    exists s1 s2 s3,
      CycleGesturesAnimation_do s = Ok tt s1
      /\ written s1 = written s ++ [Rock]
      /\ cg_timer s1 = Some (next_handle s)
      /\ enabled s1 (ETick (next_handle s)) = true
      /\ fire (next_handle s) s1 = Ok tt s2
      /\ written s2 = written s1 ++ [Paper]
      /\ enabled s2 (ETick (next_handle s)) = true
      /\ fire (next_handle s) s2 = Ok tt s3
      /\ written s3 = written s2 ++ [Scissors]
      /\ enabled s3 (ETick (next_handle s)) = false
      /\ cg_timer s3 = None
      /\ intervals s3 = intervals s
      /\ serial s3 = Some (w ++ [[Rock]; [Paper]; [Scissors]]).
Proof.
  intros s w Hw Hq. destruct s as [ser it ic fw cg iv nh cl].
  simpl in Hw, Hq. subst ser.
  exists (mkState (Some (w ++ [[Rock]])) it ic fw (Some nh)
                  (iv ++ [(nh, CycleCb Rock)]) (S nh) cl).
  exists (mkState (Some ((w ++ [[Rock]]) ++ [[Paper]])) it ic fw (Some nh)
                  (iv ++ [(nh, CycleCb Paper)]) (S nh) cl).
  exists (mkState (Some (((w ++ [[Rock]]) ++ [[Paper]]) ++ [[Scissors]]))
                  it ic fw None iv (S nh)
                  (cl ++ [CallCleanup CycleGestures])).
  unfold written, enabled; simpl.
  rewrite !(lookup_new nh iv) by assumption.
  rewrite (lookup_below nh iv) by assumption.
  rewrite !concat_app. simpl.
  repeat split; try reflexivity.
  - js_eval. rewrite (lookup_new nh iv) by assumption. simpl.
    rewrite (set_cell_new nh iv) by assumption. reflexivity.
  - js_eval. rewrite (lookup_new nh iv) by assumption. simpl.
    rewrite (set_cell_new nh iv) by assumption.
    rewrite (clear_new nh iv) by assumption. reflexivity.
  - now rewrite <- !app_assoc.
Qed.

Lemma cycle_gestures_runs_once_witness :
  exists s1 s2 s3,
    CycleGesturesAnimation_do opened = Ok tt s1
    /\ written s1 = written opened ++ [Rock]
    /\ cg_timer s1 = Some (next_handle opened)
    /\ enabled s1 (ETick (next_handle opened)) = true
    /\ fire (next_handle opened) s1 = Ok tt s2
    /\ written s2 = written s1 ++ [Paper]
    /\ enabled s2 (ETick (next_handle opened)) = true
    /\ fire (next_handle opened) s2 = Ok tt s3
    /\ written s3 = written s2 ++ [Scissors]
    /\ enabled s3 (ETick (next_handle opened)) = false
    /\ cg_timer s3 = None
    /\ intervals s3 = intervals opened
    /\ serial s3 = Some ([] ++ [[Rock]; [Paper]; [Scissors]]).
Proof.
  apply (cycle_gestures_runs_once opened []).
  - reflexivity.
  - constructor.
Defined.

(** ** The finger wave *)

Lemma finger_arithmetic (f : Finger) :
  finger_index (next_finger f) = (finger_index f + 1) mod 5
  /\ finger_index (prev_finger f)
     = (if finger_index f <=? 0 then 4 else finger_index f - 1)
  /\ 0 <= finger_index f < 5.
Proof. destruct f; repeat split; simpl; lia. Qed.

(** One firing of the wave's interval, the captured index standing at
    finger [f]. *)
Lemma finger_wave_fires (h : Handle) (f : Finger) (t : State)
      (w : list (list Z)) :
  serial t = Some w ->
  lookup h (intervals t) = Some (FingerCb (finger_index f)) ->
  fire h t =
  Ok tt (set_intervals
           (map (fun e => if Nat.eqb (fst e) h
                          then (h, FingerCb (finger_index (next_finger f)))
                          else e) (intervals t))
           (emit [code (curl (prev_finger f)); code (relax (next_finger f))] t)).
Proof.
  intros Hw Hl. destruct t as [ser it ic fw cg iv nh cl].
  simpl in Hw, Hl. subst ser.
  unfold fire, bind, get. simpl. rewrite Hl.
  destruct f; js_eval; rewrite <- app_assoc; reflexivity.
Qed.

Lemma finger_wave_keeps_running (h : Handle) (n : nat) :
  forall (f : Finger) (t : State),
    serial t <> None ->
    lookup h (intervals t) = Some (FingerCb (finger_index f)) ->
    exists t',
      run t (repeat (ETick h) n) = Some t'
      /\ written t' = written t ++ wave f n
      /\ serial t' <> None
      /\ lookup h (intervals t')
         = Some (FingerCb (finger_index (Nat.iter n next_finger f)))
      /\ fw_timer t' = fw_timer t
      /\ calls t' = calls t.
Proof.
  induction n as [| n IH]; intros f t Hw Hl.
  - exists t. simpl. rewrite app_nil_r. repeat split; assumption.
  - destruct (serial t) as [w |] eqn:Es; [| congruence].
    pose proof (finger_wave_fires h f t w Es Hl) as Hf.
    set (t1 := set_intervals _ _) in Hf.
    assert (Hw1 : serial t1 <> None).
    { subst t1. unfold set_intervals, emit, set_serial. simpl.
      rewrite Es. discriminate. }
    assert (Hl1 : lookup h (intervals t1)
                  = Some (FingerCb (finger_index (next_finger f)))).
    { subst t1. simpl. eapply lookup_set_cell. exact Hl. }
    destruct (IH (next_finger f) t1 Hw1 Hl1)
      as (t' & Hrun & Hwr & Hs' & Hl' & Hfw & Hcl).
    exists t'. simpl. rewrite Hl. simpl in Hf. rewrite Hf.
    split; [exact Hrun |].
    split.
    { rewrite Hwr. subst t1.
      change (written (set_intervals ?l ?x)) with (written x).
      rewrite written_emit by congruence.
      rewrite <- app_assoc. reflexivity. }
    split; [exact Hs' |].
    split.
    { rewrite Hl'. rewrite Nat.iter_swap. reflexivity. }
    split; [rewrite Hfw | rewrite Hcl]; subst t1; reflexivity.
Qed.

(** C4, as stated, fails on the tick: the first firing after the start
    curls the ring finger and relaxes the thumb.  For no finger are the two
    bytes, in either order, its relax code and the curl code of the finger
    after it. *)
Lemma finger_wave_tick_is_not_adjacent :
  exists s1 s2,
    FingerWaveAnimation_do opened = Ok tt s1
    /\ fire 0%nat s1 = Ok tt s2
    /\ written s2 = written s1 ++ [code RingCurl; code ThumbRelax]
    /\ forall f,
         written s2
         <> written s1 ++ [code (relax f); code (curl (next_finger f))]
         /\ written s2
            <> written s1 ++ [code (curl (next_finger f)); code (relax f)].
Proof.
  eexists. eexists.
  split; [lazy; reflexivity |]. split; [lazy; reflexivity |].
  split; [reflexivity |].
  intros f. destruct f; split; discriminate.
Qed.

(** C4, amended.  In a store with the port open and a well-formed timer
    queue, [FingerWaveAnimation.do] writes [Rock] and schedules its interval
    with the index at 4 (the pinky).  Each firing writes the curl code of the
    finger before the index and then the relax code of the finger after it,
    and moves the index to that finger, that is by one modulo 5, the pinky
    being followed by the thumb.  After any number of firings the interval
    is still live and owned: the wave never ends by itself.  [cleanup] then
    writes exactly the byte [Paper], clears the interval and disowns it. *)
Theorem finger_wave_behaviour :
  forall (s : State) (w : list (list Z)),
    serial s = Some w ->
    handles_below (next_handle s) (intervals s) ->
    (forall f, finger_index (next_finger f) = (finger_index f + 1) mod 5)
    /\ exists s1,
      FingerWaveAnimation_do s = Ok tt s1
      /\ written s1 = written s ++ [Rock]
      /\ fw_timer s1 = Some (next_handle s)
      /\ lookup (next_handle s) (intervals s1)
         = Some (FingerCb (finger_index Pinky))
      /\ forall n : nat,
          exists sn s',
            run s1 (repeat (ETick (next_handle s)) n) = Some sn
            /\ written sn = written s1 ++ wave Pinky n
            /\ enabled sn (ETick (next_handle s)) = true
            /\ fw_timer sn = Some (next_handle s)
            /\ FingerWaveAnimation_cleanup sn = Ok tt s'
            /\ written s' = written sn ++ [Paper]
            /\ fw_timer s' = None
            /\ enabled s' (ETick (next_handle s)) = false.
Proof.
  intros s w Hw Hq.
  split; [intros f; apply finger_arithmetic |].
  destruct s as [ser it ic fw cg iv nh cl]. simpl in Hw, Hq. subst ser.
  set (s1 := mkState (Some (w ++ [[Rock]])) it ic (Some nh) cg
                     (iv ++ [(nh, FingerCb 4)]) (S nh) cl).
  exists s1. simpl.
  split; [reflexivity |].
  split; [unfold written; simpl; now rewrite concat_app |].
  split; [reflexivity |].
  split; [now apply lookup_new |].
  intros n.
  destruct (finger_wave_keeps_running nh n Pinky s1)
    as (sn & Hrun & Hwr & Hs & Hl & Hfw & _).
  { discriminate. }
  { now apply lookup_new. }
  destruct sn as [ser' it' ic' fw' cg' iv' nh' cl'].
  simpl in Hs, Hl, Hfw. subst fw'.
  destruct ser' as [w' |]; [| congruence].
  eexists. eexists.
  split; [exact Hrun |].
  split; [exact Hwr |].
  split; [simpl; now rewrite Hl |].
  split; [reflexivity |].
  split; [reflexivity |].
  split; [unfold written; simpl; now rewrite concat_app |].
  split; [reflexivity |].
  simpl. now rewrite lookup_cleared.
Qed.

Lemma finger_wave_behaviour_witness :
  exists sn s',
    run (mkState (Some [[Rock]]) None None (Some 0%nat) None
                 [(0%nat, FingerCb 4)] 1%nat [])
        (repeat (ETick 0%nat) 6) = Some sn
    /\ written sn = [0; 12; 5; 14; 7; 6; 9; 8; 11; 10; 13; 12; 5]
    /\ FingerWaveAnimation_cleanup sn = Ok tt s'
    /\ written s' = written sn ++ [Paper]
    /\ enabled s' (ETick 0%nat) = false.
Proof.
  destruct (finger_wave_behaviour opened [] eq_refl (Forall_nil _))
    as (_ & s1 & Hdo & _ & _ & _ & Hn).
  injection Hdo as <-.
  destruct (Hn 6%nat) as (sn & s' & Hrun & Hwr & _ & _ & Hc & Hp & _ & He).
  exists sn, s'. repeat split; assumption.
Defined.

(** ** The invariant of the idle rotation *)

Lemma running_snoc (l : list Call) (c : Call) :
  running (l ++ [c]) = after_call (running l) c.
Proof. unfold running. now rewrite fold_left_app. Qed.

Lemma calm_nil : calm [].
Proof.
  intros p q E. symmetry in E. apply app_eq_nil in E as [-> _].
  simpl. lia.
Qed.

Lemma calm_snoc (l : list Call) (c : Call) :
  calm l -> (length (after_call (running l) c) <= 1)%nat -> calm (l ++ [c]).
Proof.
  intros Hl Hc p q E.
  destruct q as [| c' q' _] using rev_ind.
  - rewrite app_nil_r in E. subst p. now rewrite running_snoc.
  - rewrite app_assoc in E. apply app_inj_tail in E as [E _].
    exact (Hl p q' E).
Qed.

Lemma run_app (a b : list Event) :
  forall s, run s (a ++ b)
            = match run s a with Some s' => run s' b | None => None end.
Proof.
  induction a as [| e a IH]; intros s; simpl; [reflexivity |].
  destruct (enabled s e); [| reflexivity].
  destruct (step e s) as [[] s' | s']; [apply IH | reflexivity].
Qed.

Ltac decide_handles :=
  repeat match goal with
         | |- context [Nat.eqb ?a ?b] =>
             destruct (Nat.eqb_spec a b); try lia; try subst; simpl
         | H : context [Nat.eqb ?a ?b] |- _ =>
             destruct (Nat.eqb_spec a b); try lia; try subst; simpl in H
         end.

Ltac calm_side :=
  repeat match goal with
         | |- calm (_ ++ [_]) => apply calm_snoc
         | |- calm _ => assumption
         | |- context [running (_ ++ [_])] => rewrite running_snoc
         | H : running ?l = _ |- context [running ?l] => rewrite H
         end;
  simpl; try reflexivity; try lia.

Ltac show_Inv :=
  first [ apply Inv_off | apply Inv_waiting | apply Inv_wave | apply Inv_wrist
        | apply Inv_cycle | apply Inv_cycle_done ];
  try lia; calm_side.

Lemma step_preserves_Inv (s : State) (e : Event) :
  Inv s -> enabled s e = true -> exists s', step e s = Ok tt s' /\ Inv s'.
Proof.
  intros HI He.
  destruct HI; destruct e; simpl in He; js_eval.
  all: decide_handles; try discriminate He; simpl; decide_handles.
  all: try (eexists; split; [reflexivity | show_Inv]; fail).
  - eexists. split; [reflexivity |].
    pose proof (Z.rem_bound_pos (f + 1) 5 ltac:(lia) ltac:(lia)).
    show_Inv.
  - eexists. split; [reflexivity |].
    apply Inv_cycle; unfold Rock; try lia; calm_side.
  - unfold Scissors.
    destruct (Z.leb_spec 2 (a + 1)); simpl; decide_handles;
      eexists; (split; [reflexivity | show_Inv]).
Qed.

Lemma Inv_opened : Inv opened.
Proof. apply Inv_off; [apply calm_nil | reflexivity]. Qed.

Lemma run_preserves_Inv (evs : list Event) :
  forall s s', Inv s -> run s evs = Some s' -> Inv s'.
Proof.
  induction evs as [| e evs IH]; intros s s' HI Hr; simpl in Hr.
  - now injection Hr as <-.
  - destruct (enabled s e) eqn:He; [| discriminate].
    destruct (step_preserves_Inv s e HI He) as (s1 & Hs & HI1).
    rewrite Hs in Hr. exact (IH s1 s' HI1 Hr).
Qed.

Lemma reachable_Inv (evs : list Event) (s : State) :
  run opened evs = Some s -> Inv s.
Proof. apply run_preserves_Inv, Inv_opened. Qed.

(** In a run from the opened object no method call and no firing throws:
    a run stops only at a firing of an interval that is not live. *)
Lemma reachable_never_throws (evs : list Event) (s : State) (e : Event) :
  run opened evs = Some s -> enabled s e = true ->
  exists s', step e s = Ok tt s'.
Proof.
  intros Hr He.
  destruct (step_preserves_Inv s e (reachable_Inv evs s Hr) He) as (s' & H & _).
  now exists s'.
Qed.




(** ** Starting a game *)

(** With nothing scheduled, an event other than [idle] is a method call and
    schedules nothing. *)
Lemma quiet_step (s : State) (e : Event) :
  Inv s -> intervals s = [] -> not_idle e = true -> enabled s e = true ->
  exists s', step e s = Ok tt s' /\ Inv s' /\ intervals s' = []
             /\ not_tick e = true.
Proof.
  intros HI Hq Hi He.
  destruct HI; simpl in Hq; try discriminate Hq.
  destruct e; simpl in Hi, He; try discriminate;
    js_eval; eexists;
    (split; [reflexivity | split; [show_Inv | split; reflexivity]]).
Qed.

Lemma quiet_run (post : list Event) :
  forall s s2,
    Inv s -> intervals s = [] -> forallb not_idle post = true ->
    run s post = Some s2 ->
    forallb not_tick post = true /\ intervals s2 = [].
Proof.
  induction post as [| e post IH]; intros s s2 HI Hq Hi Hr; simpl in *.
  - injection Hr as <-. now split.
  - apply andb_true_iff in Hi as [Hi1 Hi2].
    destruct (enabled s e) eqn:He; [| discriminate].
    destruct (quiet_step s e HI Hq Hi1 He) as (s' & Hs & HI' & Hq' & Ht).
    rewrite Hs in Hr. rewrite Ht. simpl.
    exact (IH s' s2 HI' Hq' Hi2 Hr).
Qed.

Lemma gameStart_from_Inv (s : State) :
  Inv s ->
  exists mid s1,
    stopIdleAnimations s = Ok tt mid
    /\ send Rock mid = Ok tt s1
    /\ gameStart s = Ok tt s1
    /\ intervals mid = [] /\ running (calls mid) = []
    /\ written mid
       = written s
         ++ (if existsb (anim_eqb FingerWave) (running (calls s))
             then [Paper] else [])
    /\ written s1 = written mid ++ [Rock]
    /\ Inv s1 /\ intervals s1 = [].
Proof.
  intros HI.
  destruct HI as [w n cl ? Hrun | w h0 n cl ? ? Hrun
                 | w h0 h1 f n cl ? ? ? Hrun | w h0 n cl ? ? Hrun
                 | w h0 h2 c n cl ? ? ? Hrun | w h0 n cl ? ? Hrun];
    unfold gameStart, written; js_eval; decide_handles;
    eexists; eexists;
    (split; [reflexivity |]); (split; [reflexivity |]);
    (split; [reflexivity |]); (split; [reflexivity |]);
    simpl; rewrite ?running_snoc, Hrun; simpl;
    rewrite ?concat_app, ?app_nil_r; simpl;
    (split; [reflexivity |]); (split; [reflexivity |]);
    (split; [reflexivity |]); (split; [show_Inv | reflexivity]).
Qed.

(** C2.  In any run of the opened object, [gameStart] first runs
    [stopIdleAnimations] to its end, after which no interval is live and no
    animation is running, and only then writes its own byte [Rock]; the one
    byte the stop may write, [Paper] from the finger wave's [cleanup], comes
    before it.  If the run goes on without a call of [idle], it contains no
    firing of an interval: every byte written after the game start comes
    from a method call, none from an idle animation. *)
Theorem gameStart_stops_idle_first :
  forall (pre : list Event) (s : State),
    run opened pre = Some s ->
    exists mid s1,
      stopIdleAnimations s = Ok tt mid
      /\ send Rock mid = Ok tt s1
      /\ gameStart s = Ok tt s1
      /\ intervals mid = [] /\ running (calls mid) = []
      /\ written mid
         = written s
           ++ (if existsb (anim_eqb FingerWave) (running (calls s))
               then [Paper] else [])
      /\ written s1 = written mid ++ [Rock]
      /\ forall (post : list Event) (s2 : State),
           forallb not_idle post = true ->
           run opened (pre ++ EGameStart :: post) = Some s2 ->
           forallb not_tick post = true /\ intervals s2 = [].
Proof.
  intros pre s Hr.
  destruct (gameStart_from_Inv s (reachable_Inv pre s Hr))
    as (mid & s1 & H1 & H2 & H3 & H4 & H5 & H6 & H7 & HI1 & Hq1).
  exists mid, s1. repeat (split; [assumption |]).
  intros post s2 Hi Hrun.
  rewrite run_app, Hr in Hrun. simpl in Hrun. rewrite H3 in Hrun.
  exact (quiet_run post s1 s2 HI1 Hq1 Hi Hrun).
Qed.

Lemma gameStart_stops_idle_first_witness :
  exists s2,
    run opened ([EIdle; ETick 0%nat; ETick 1%nat]
                  ++ EGameStart :: [ECountdown 3; EShoot Paper]) = Some s2
    /\ written s2 = [Paper; Rock; 12; 5; Paper; Rock; 4; Paper]
    /\ intervals s2 = [].
Proof.
  match goal with
  | |- exists s, run opened ?l = _ /\ _ =>
      destruct (run opened l) as [s2 |] eqn:E;
      [| vm_compute in E; discriminate E]
  end.
  exists s2. split; [reflexivity |].
  destruct (run opened [EIdle; ETick 0%nat; ETick 1%nat]) as [s |] eqn:E0;
    [| vm_compute in E0; discriminate E0].
  destruct (gameStart_stops_idle_first _ s E0)
    as (mid & s1 & _ & _ & _ & _ & _ & _ & _ & Hpost).
  destruct (Hpost [ECountdown 3; EShoot Paper] s2 eq_refl E) as [_ Hq].
  split; [| exact Hq].
  vm_compute in E. injection E as <-. reflexivity.
Defined.

(** ** Leaving idle mode twice *)

(** C7.  In every store where a call of [stopIdleAnimations] returns, it
    leaves [idleCurrent] and [idleTimer] unset, with the rotation interval
    out of the timer queue and the active animation, if any, cleaned up
    once: the interval owned by an active finger wave or gesture cycle is
    out of the timer queue and disowned.  A second call right after returns
    as well and changes nothing: it writes no byte and calls no animation,
    whichever animation was active.  In every store reached by a run of the
    opened object the first call does return, and after it no interval at
    all is live, no animation owns a timer and none is running; the only
    byte it writes is the [Paper] of the finger wave's [cleanup], when the
    wave was running. *)
Theorem stopIdleAnimations_twice :
  (forall s s1 : State,
      stopIdleAnimations s = Ok tt s1 ->
      idleCurrent s1 = None
      /\ idleTimer s1 = None
      /\ (forall h, idleTimer s = Some h -> lookup h (intervals s1) = None)
      /\ (forall h, idleCurrent s = Some 0 -> fw_timer s = Some h ->
            fw_timer s1 = None /\ lookup h (intervals s1) = None)
      /\ (forall h, idleCurrent s = Some 2 -> cg_timer s = Some h ->
            cg_timer s1 = None /\ lookup h (intervals s1) = None)
      /\ calls s1 =
         calls s ++
         match idleCurrent s with
         | Some i => [CallCleanup (nth (Z.to_nat i) idleAnimations FingerWave)]
         | None => []
         end
      /\ stopIdleAnimations s1 = Ok tt s1)
  /\ (forall (evs : list Event) (s : State),
        run opened evs = Some s ->
        exists s1,
          stopIdleAnimations s = Ok tt s1
          /\ intervals s1 = []
          /\ fw_timer s1 = None /\ cg_timer s1 = None
          /\ running (calls s1) = []
          /\ written s1
             = written s
               ++ (if existsb (anim_eqb FingerWave) (running (calls s))
                   then [Paper] else [])
          /\ stopIdleAnimations s1 = Ok tt s1).
Proof.
  split.
  - intros s s1 H. destruct s as [ser it ic fw cg iv nh cl].
    js_eval_in H. js_eval.
    destruct ic as [z |].
    + destruct (z <? 0); [discriminate H |].
      destruct (Z.to_nat z) as [| [| [| [| n]]]] eqn:Ez;
        destruct ser as [w |]; destruct fw as [hf |]; destruct cg as [hc |];
        destruct it as [h0 |]; simpl in H;
        first
          [ discriminate H
          | injection H as <-; simpl;
            repeat split; intros;
            repeat match goal with
                   | Hz : Some z = Some _ |- _ => injection Hz as ->
                   | Hh : Some _ = Some _ |- _ => injection Hh as <-
                   end;
            try discriminate; try reflexivity;
            first [ apply lookup_cleared
                  | apply lookup_filter_none, lookup_cleared ] ].
    + destruct it as [h0 |]; simpl in H; injection H as <-; simpl;
        rewrite ?app_nil_r;
        repeat split; intros; try discriminate; try reflexivity;
        match goal with
        | Hh : Some _ = Some _ |- _ =>
            injection Hh as <-; apply lookup_cleared
        end.
  - intros evs s Hr. pose proof (reachable_Inv evs s Hr) as HI.
    destruct HI as [w n cl ? Hrun | w h0 n cl ? ? Hrun
                   | w h0 h1 f n cl ? ? ? Hrun | w h0 n cl ? ? Hrun
                   | w h0 h2 c n cl ? ? ? Hrun | w h0 n cl ? ? Hrun];
      unfold written; js_eval; decide_handles;
      eexists; (split; [reflexivity |]);
      simpl; rewrite ?running_snoc, Hrun; simpl;
      rewrite ?concat_app, ?app_nil_r; simpl;
      repeat split.
Qed.

Lemma stopIdleAnimations_twice_witness :
  exists s s1,
    run opened [EIdle; ETick 0%nat] = Some s
    /\ running (calls s) = [FingerWave]
    /\ enabled s (ETick 1%nat) = true
    /\ stopIdleAnimations s = Ok tt s1
    /\ written s1 = written s ++ [Paper]
    /\ fw_timer s1 = None
    /\ lookup 1%nat (intervals s1) = None
    /\ intervals s1 = []
    /\ running (calls s1) = []
    /\ stopIdleAnimations s1 = Ok tt s1.
Proof.
  pose (s := mkState (Some [[Paper]; [Rock]]) (Some 0%nat) (Some 0)
                     (Some 1%nat) None
                     [(0%nat, RotateCb); (1%nat, FingerCb 4)] 2%nat
                     [CallDo FingerWave]).
  assert (E : run opened [EIdle; ETick 0%nat] = Some s) by reflexivity.
  destruct (proj2 stopIdleAnimations_twice _ s E)
    as (s1 & H1 & H2 & H3 & _ & H5 & H6 & H7).
  destruct (proj1 stopIdleAnimations_twice s s1 H1)
    as (_ & _ & _ & Hfw & _).
  destruct (Hfw 1%nat eq_refl eq_refl) as [_ Hl].
  exists s, s1.
  split; [exact E |]. split; [reflexivity |]. split; [reflexivity |].
  split; [exact H1 |]. split; [exact H6 |]. split; [exact H3 |].
  split; [exact Hl |]. split; [exact H2 |]. split; [exact H5 | exact H7].
Defined.

(** * Further properties of the code *)

(** ** The byte conversion of [send] *)

Lemma toInt8_mod (n : Z) : toInt8 n mod 256 = n mod 256.
Proof.
  destruct (toInt8_congruent n) as [k Hk]. rewrite Hk.
  rewrite Z.mul_comm. apply Z_mod_plus_full.
Qed.

(** X1.  Two commands give the same byte exactly when they are congruent modulo
    256, and converting a byte again changes nothing: [send] cannot tell
    [command] from [command + 256], and commands from 128 to 255 go out as
    negative bytes. *)
Theorem toInt8_same_byte_iff_congruent :
  forall a b : Z,
    (toInt8 a = toInt8 b <-> a mod 256 = b mod 256)
    /\ toInt8 (toInt8 a) = toInt8 a
    /\ toInt8 (a + 256) = toInt8 a
    /\ (128 <= a <= 255 -> toInt8 a = a - 256).
Proof.
  intros a b. split; [split |].
  - intros H. rewrite <- (toInt8_mod a), <- (toInt8_mod b). now rewrite H.
  - intros H. unfold toInt8. now rewrite H.
  - split; [apply toInt8_in_range, toInt8_range |].
    split.
    + unfold toInt8.
      replace (a + 256) with (a + 1 * 256) by lia.
      now rewrite Z_mod_plus_full.
    + intros Ha. unfold toInt8. rewrite Z.mod_small by lia.
      destruct (128 <=? a) eqn:E; [reflexivity | apply Z.leb_gt in E; lia].
Qed.

Lemma toInt8_same_byte_iff_congruent_witness :
  toInt8 300 = toInt8 44 /\ toInt8 200 = 200 - 256.
Proof.
  destruct (toInt8_same_byte_iff_congruent 300 44) as ([_ H] & _).
  destruct (toInt8_same_byte_iff_congruent 200 0) as (_ & _ & _ & H').
  split; [apply H; reflexivity | apply H'; lia].
Defined.

(** ** Methods called while the port is unset *)

(** X2.  Before [init] has created the port, every method that sends throws and
    leaves the store as it was; in particular [idle] throws before it
    schedules the rotation, so that no timer is left behind.  [tryAgain] and
    [score] send nothing and return. *)
Theorem methods_throw_while_port_unset :
  forall s : State,
    serial s = None ->
    idle s = Throw s
    /\ (forall st, countdown st s = Throw s)
    /\ (forall a, shoot a s = Throw s)
    /\ (forall r h, robotWin r h s = Throw s)
    /\ (forall r h, humanWin r h s = Throw s)
    /\ (forall a, tie a s = Throw s)
    /\ gameStop s = Throw s
    /\ tryAgain s = Ok tt s
    /\ (forall r h, score r h s = Ok tt s).
Proof.
  intros s H. destruct s as [ser it ic fw cg iv nh cl].
  simpl in H. subst ser. repeat split.
Qed.

Lemma methods_throw_while_port_unset_witness :
  idle fresh = Throw fresh /\ intervals fresh = [].
Proof.
  split; [exact (proj1 (methods_throw_while_port_unset fresh eq_refl)) |].
  reflexivity.
Defined.

(** X3.  When the write of the finger wave's [cleanup] throws,
    [stopIdleAnimations] and [gameStart] throw with it before anything is
    cleared: [idleCurrent], the rotation interval and the wave's interval
    all stay as they were, only the [cleanup] invocation is on record. *)
Theorem stop_throws_before_clearing :
  forall s : State,
    serial s = None -> idleCurrent s = Some 0 ->
    stopIdleAnimations s
    = Throw (set_calls (calls s ++ [CallCleanup FingerWave]) s)
    /\ gameStart s
       = Throw (set_calls (calls s ++ [CallCleanup FingerWave]) s).
Proof.
  intros s H Hc. destruct s as [ser it ic fw cg iv nh cl].
  simpl in H, Hc. subst ser ic. split; reflexivity.
Qed.

Lemma stop_throws_before_clearing_witness :
  exists s s',
    stopIdleAnimations s = Throw s'
    /\ idleTimer s' = Some 0%nat /\ idleCurrent s' = Some 0
    /\ intervals s' = [(0%nat, RotateCb); (1%nat, FingerCb 4)].
Proof.
  pose (s := mkState None (Some 0%nat) (Some 0) (Some 1%nat) None
                     [(0%nat, RotateCb); (1%nat, FingerCb 4)] 2%nat
                     [CallDo FingerWave]).
  exists s. eexists.
  split; [exact (proj1 (stop_throws_before_clearing s eq_refl eq_refl)) |].
  repeat split.
Defined.

(** ** Game events in sequence *)

Lemma emit_nil (s : State) : emit [] s = s.
Proof.
  destruct s as [[w |] it ic fw cg iv nh cl]; unfold emit, set_serial; simpl;
    [now rewrite app_nil_r | reflexivity].
Qed.

Lemma emit_emit (a b : list Z) (s : State) :
  emit b (emit a s) = emit (a ++ b) s.
Proof.
  destruct s as [[w |] it ic fw cg iv nh cl]; unfold emit, set_serial; simpl;
    [now rewrite map_app, app_assoc | reflexivity].
Qed.

Lemma plain_event_step (e : Event) (s : State) :
  serial s <> None -> plain_event e = true ->
  enabled s e = true /\ step e s = Ok tt (emit (event_bytes e) s).
Proof.
  intros Hs He.
  destruct s as [[w |] it ic fw cg iv nh cl]; [| now elim Hs].
  destruct e; try discriminate He; split; try reflexivity;
    unfold step, tryAgain, score, ret, event_bytes;
    now rewrite emit_nil.
Qed.

(** X4.  With the port open, any sequence of the game events [countdown],
    [shoot], [tryAgain], [robotWin], [humanWin], [tie], [score] and
    [gameStop] runs to its end and does nothing but write: the bytes of the
    events, in order, one buffer each.  The idle rotation, the timer queue
    and the animations are left exactly as they were, so none of these
    events stops an idle animation. *)
Theorem plain_events_only_write :
  forall (evs : list Event) (s : State),
    serial s <> None ->
    forallb plain_event evs = true ->
    run s evs = Some (emit (flat_map event_bytes evs) s).
Proof.
  induction evs as [| e evs IH]; intros s Hs Hp; simpl.
  - now rewrite emit_nil.
  - simpl in Hp. apply andb_true_iff in Hp as [He Hp].
    destruct (plain_event_step e s Hs He) as [Hen Hst].
    rewrite Hen, Hst, IH; [now rewrite emit_emit | | exact Hp].
    destruct s as [[w |] it ic fw cg iv nh cl]; [discriminate | now elim Hs].
Qed.

Lemma plain_events_only_write_witness :
  run opened [ECountdown 3; EShoot Scissors; ERobotWin Scissors Paper;
              EScore 1 0; ETryAgain; EGameStop]
  = Some (emit [4; 2; 0; 1] opened).
Proof.
  apply (plain_events_only_write
           [ECountdown 3; EShoot Scissors; ERobotWin Scissors Paper;
            EScore 1 0; ETryAgain; EGameStop] opened).
  - discriminate.
  - reflexivity.
Defined.

(** ** Entering and leaving idle mode at once *)

Lemma handles_below_new (n : Handle) (l : list (Handle * Callback))
      (cb : Callback) :
  handles_below n l -> handles_below (S n) (l ++ [(n, cb)]).
Proof.
  intros H. apply Forall_app. split.
  - eapply Forall_impl; [| exact H]. simpl. intros e He. lia.
  - constructor; [simpl; lia | constructor].
Qed.

(** X5.  With the port open, nothing scheduled and a well-formed timer queue,
    [idle] followed by [stopIdleAnimations] leaves no trace but the byte
    [Paper] and the handle that was used up: the rotation interval is gone
    again and no animation was called. *)
Theorem idle_then_stop_round_trip :
  forall (s : State) (w : list (list Z)),
    serial s = Some w ->
    idleTimer s = None -> idleCurrent s = None ->
    handles_below (next_handle s) (intervals s) ->
    exists s1,
      idle s = Ok tt s1
      /\ enabled s1 (ETick (next_handle s)) = true
      /\ stopIdleAnimations s1
         = Ok tt (set_next_handle (S (next_handle s)) (emit [Paper] s)).
Proof.
  intros s w Hw Ht Hc Hq. destruct s as [ser it ic fw cg iv nh cl].
  simpl in Hw, Ht, Hc, Hq. subst ser it ic.
  eexists. split; [reflexivity |]. split.
  - simpl. now rewrite (lookup_new nh iv).
  - js_eval. now rewrite (clear_new nh iv).
Qed.

Lemma idle_then_stop_round_trip_witness :
  exists s1,
    idle opened = Ok tt s1
    /\ enabled s1 (ETick (next_handle opened)) = true
    /\ stopIdleAnimations s1
       = Ok tt (set_next_handle (S (next_handle opened)) (emit [Paper] opened)).
Proof.
  apply (idle_then_stop_round_trip opened [] eq_refl eq_refl eq_refl).
  constructor.
Defined.

(** ** Animations stopped early or started twice *)

Lemma lookup_app_found (h : Handle) (l r : list (Handle * Callback))
      (cb : Callback) :
  lookup h l = Some cb -> lookup h (l ++ r) = Some cb.
Proof.
  induction l as [| [h' c] l IH]; simpl; [discriminate |].
  destruct (Nat.eqb h' h); [trivial | exact IH].
Qed.

(** X6.  In a store with the port open and a well-formed timer queue, a
    [cleanup] of the gesture cycle right after its [do], or after its first
    firing, cancels the rest of the cycle: the interval cannot fire any
    more, the timer queue is as before the [do], and only [Rock], or
    [Rock] and [Paper], were written. *)
Theorem cycle_gestures_cancelled_early :
  forall (s : State) (w : list (list Z)),
    serial s = Some w ->
    handles_below (next_handle s) (intervals s) ->
    exists s1 s2 c1 c2,
      CycleGesturesAnimation_do s = Ok tt s1
      /\ CycleGesturesAnimation_cleanup s1 = Ok tt c1
      /\ written c1 = written s ++ [Rock]
      /\ enabled c1 (ETick (next_handle s)) = false
      /\ cg_timer c1 = None /\ intervals c1 = intervals s
      /\ fire (next_handle s) s1 = Ok tt s2
      /\ CycleGesturesAnimation_cleanup s2 = Ok tt c2
      /\ written c2 = written s ++ [Rock; Paper]
      /\ enabled c2 (ETick (next_handle s)) = false
      /\ cg_timer c2 = None /\ intervals c2 = intervals s.
Proof.
  intros s w Hw Hq. destruct s as [ser it ic fw cg iv nh cl].
  simpl in Hw, Hq. subst ser.
  exists (mkState (Some (w ++ [[Rock]])) it ic fw (Some nh)
                  (iv ++ [(nh, CycleCb Rock)]) (S nh) cl).
  exists (mkState (Some ((w ++ [[Rock]]) ++ [[Paper]])) it ic fw (Some nh)
                  (iv ++ [(nh, CycleCb Paper)]) (S nh) cl).
  exists (mkState (Some (w ++ [[Rock]])) it ic fw None iv (S nh) cl).
  exists (mkState (Some ((w ++ [[Rock]]) ++ [[Paper]])) it ic fw None iv
                  (S nh) cl).
  unfold written, enabled; simpl.
  rewrite (lookup_below nh iv) by assumption.
  rewrite !concat_app. simpl.
  repeat split; try reflexivity.
  - js_eval. now rewrite (clear_new nh iv).
  - js_eval. rewrite (lookup_new nh iv) by assumption. simpl.
    now rewrite (set_cell_new nh iv).
  - js_eval. now rewrite (clear_new nh iv).
  - now rewrite <- app_assoc.
Qed.

Lemma cycle_gestures_cancelled_early_witness :
  exists s1 s2 c2,
    CycleGesturesAnimation_do opened = Ok tt s1
    /\ fire 0%nat s1 = Ok tt s2
    /\ CycleGesturesAnimation_cleanup s2 = Ok tt c2
    /\ written c2 = [Rock; Paper]
    /\ enabled c2 (ETick 0%nat) = false.
Proof.
  destruct (cycle_gestures_cancelled_early opened [] eq_refl (Forall_nil _))
    as (s1 & s2 & c1 & c2 & H1 & _ & _ & _ & _ & _ & H2 & H3 & H4 & H5 & _).
  exists s1, s2, c2. repeat split; assumption.
Defined.

(** X7.  The finger wave started twice without a [cleanup] in between loses
    its first interval: the timer field only remembers the second one, so
    [cleanup], however often it is called, cancels the second and leaves
    the first live in the timer queue, still able to fire. *)
Theorem finger_wave_started_twice_leaks :
  forall (s : State) (w : list (list Z)),
    serial s = Some w ->
    handles_below (next_handle s) (intervals s) ->
    exists s1 s2 s3 s4,
      FingerWaveAnimation_do s = Ok tt s1
      /\ FingerWaveAnimation_do s1 = Ok tt s2
      /\ fw_timer s2 = Some (S (next_handle s))
      /\ FingerWaveAnimation_cleanup s2 = Ok tt s3
      /\ FingerWaveAnimation_cleanup s3 = Ok tt s4
      /\ fw_timer s4 = None
      /\ enabled s4 (ETick (S (next_handle s))) = false
      /\ enabled s4 (ETick (next_handle s)) = true
      /\ intervals s4 = intervals s ++ [(next_handle s, FingerCb 4)].
Proof.
  intros s w Hw Hq. destruct s as [ser it ic fw cg iv nh cl].
  simpl in Hw, Hq. subst ser.
  pose proof (handles_below_new nh iv (FingerCb 4) Hq) as Hq1.
  eexists. eexists. eexists. eexists.
  split; [js_eval; reflexivity |]. split; [js_eval; reflexivity |].
  split; [reflexivity |].
  split.
  { js_eval. rewrite (clear_new (S nh) (iv ++ [(nh, FingerCb 4)])) by
      assumption. reflexivity. }
  split; [js_eval; reflexivity |]. split; [reflexivity |].
  simpl.
  rewrite (lookup_below (S nh) _ Hq1), (lookup_new nh iv) by assumption.
  repeat split.
Qed.

Lemma finger_wave_started_twice_leaks_witness :
  exists s1 s2 s3 s4,
    FingerWaveAnimation_do opened = Ok tt s1
    /\ FingerWaveAnimation_do s1 = Ok tt s2
    /\ fw_timer s2 = Some 1%nat
    /\ FingerWaveAnimation_cleanup s2 = Ok tt s3
    /\ FingerWaveAnimation_cleanup s3 = Ok tt s4
    /\ fw_timer s4 = None
    /\ enabled s4 (ETick 1%nat) = false
    /\ enabled s4 (ETick 0%nat) = true
    /\ intervals s4 = [] ++ [(0%nat, FingerCb 4)].
Proof.
  exact (finger_wave_started_twice_leaks opened [] eq_refl (Forall_nil _)).
Defined.

Lemma set_cell_older (n : Handle) (l : list (Handle * Callback))
      (cb cb' c : Callback) :
  handles_below n l ->
  map (fun e => if Nat.eqb (fst e) n then (n, cb') else e)
      ((l ++ [(n, cb)]) ++ [(S n, c)])
  = (l ++ [(n, cb')]) ++ [(S n, c)].
Proof.
  intros H. rewrite map_app, (set_cell_new n l) by assumption.
  cbn [map fst].
  destruct (Nat.eqb_spec (S n) n); [lia | reflexivity].
Qed.

(** A firing of a gesture-cycle closure that is past [Paper] while the
    animation owns no timer: it writes the next number and stays live. *)
Lemma cycle_overrun_fires (h : Handle) (a : Z) (t : State)
      (w : list (list Z)) :
  serial t = Some w -> cg_timer t = None ->
  lookup h (intervals t) = Some (CycleCb a) -> 1 <= a ->
  fire h t =
  Ok tt (set_calls (calls t ++ [CallCleanup CycleGestures])
           (set_intervals
              (map (fun e => if Nat.eqb (fst e) h
                             then (h, CycleCb (a + 1)) else e) (intervals t))
              (emit [toInt8 (a + 1)] t))).
Proof.
  intros Hw Hc Hl Ha. destruct t as [ser it ic fw cg iv nh cl].
  simpl in Hw, Hc, Hl. subst ser cg.
  unfold fire, bind, get. simpl. rewrite Hl.
  unfold cycle_tick, Scissors.
  destruct (Z.leb_spec 2 (a + 1)); [reflexivity | lia].
Qed.

Lemma cycle_overrun_keeps_firing (h : Handle) (n : nat) :
  forall (a : Z) (t : State),
    serial t <> None -> cg_timer t = None ->
    lookup h (intervals t) = Some (CycleCb a) -> 1 <= a ->
    exists t',
      run t (repeat (ETick h) n) = Some t'
      /\ written t'
         = written t ++ map (fun k => toInt8 (a + 1 + Z.of_nat k)) (seq 0 n)
      /\ enabled t' (ETick h) = true.
Proof.
  induction n as [| n IH]; intros a t Hw Hc Hl Ha.
  - exists t. simpl. rewrite Hl, app_nil_r. repeat split.
  - destruct (serial t) as [w |] eqn:Es; [| congruence].
    pose proof (cycle_overrun_fires h a t w Es Hc Hl Ha) as Hf.
    set (t1 := set_calls _ _) in Hf.
    assert (Hw1 : serial t1 <> None).
    { subst t1. unfold set_calls, set_intervals, emit, set_serial. simpl.
      rewrite Es. discriminate. }
    assert (Hl1 : lookup h (intervals t1) = Some (CycleCb (a + 1))).
    { subst t1. simpl. eapply lookup_set_cell. exact Hl. }
    destruct (IH (a + 1) t1 Hw1 Hc Hl1 ltac:(lia)) as (t' & Hrun & Hwr & He).
    exists t'. simpl. rewrite Hl. simpl in Hf. rewrite Hf.
    split; [exact Hrun |]. split; [| exact He].
    rewrite Hwr. subst t1.
    change (written (set_calls ?c (set_intervals ?l ?x))) with (written x).
    rewrite written_emit by congruence.
    rewrite <- app_assoc. simpl. rewrite Z.add_0_r.
    do 2 f_equal. rewrite <- seq_shift, map_map.
    apply map_ext. intros k. f_equal. lia.
Qed.

(** X8.  The gesture cycle started twice without a [cleanup] in between never
    stops: when the first closure reaches [Scissors] its [cleanup] cancels
    the interval the timer field remembers, which is the second one, not
    its own.  The second interval is cancelled before it ever fired, and the
    first goes on firing for ever, writing 3, 4, 5 and so on. *)
Theorem cycle_gestures_started_twice_overruns :
  forall (s : State) (w : list (list Z)),
    serial s = Some w ->
    handles_below (next_handle s) (intervals s) ->
    exists s1 s2 s3 t,
      CycleGesturesAnimation_do s = Ok tt s1
      /\ CycleGesturesAnimation_do s1 = Ok tt s2
      /\ fire (next_handle s) s2 = Ok tt s3
      /\ fire (next_handle s) s3 = Ok tt t
      /\ written t = written s ++ [Rock; Rock; Paper; Scissors]
      /\ cg_timer t = None
      /\ enabled t (ETick (S (next_handle s))) = false
      /\ forall n : nat,
          exists t',
            run t (repeat (ETick (next_handle s)) n) = Some t'
            /\ written t'
               = written t ++ map (fun k => toInt8 (3 + Z.of_nat k)) (seq 0 n)
            /\ enabled t' (ETick (next_handle s)) = true.
Proof.
  intros s w Hw Hq. destruct s as [ser it ic fw cg iv nh cl].
  simpl in Hw, Hq. subst ser.
  pose proof (handles_below_new nh iv (CycleCb Scissors) Hq) as Hq2.
  set (s2 := mkState (Some ((w ++ [[Rock]]) ++ [[Rock]])) it ic fw
                     (Some (S nh))
                     ((iv ++ [(nh, CycleCb Rock)]) ++ [(S nh, CycleCb Rock)])
                     (S (S nh)) cl).
  set (s3 := mkState (Some (((w ++ [[Rock]]) ++ [[Rock]]) ++ [[Paper]]))
                     it ic fw (Some (S nh))
                     ((iv ++ [(nh, CycleCb Paper)]) ++ [(S nh, CycleCb Rock)])
                     (S (S nh)) cl).
  set (t := mkState
              (Some ((((w ++ [[Rock]]) ++ [[Rock]]) ++ [[Paper]])
                       ++ [[Scissors]]))
              it ic fw None (iv ++ [(nh, CycleCb Scissors)])
              (S (S nh)) (cl ++ [CallCleanup CycleGestures])).
  eexists. exists s2, s3, t.
  split; [js_eval; reflexivity |]. split; [reflexivity |].
  split.
  { subst s2 s3. js_eval.
    rewrite (lookup_app_found nh _ _ (CycleCb Rock)) by now apply lookup_new.
    simpl. now rewrite (set_cell_older nh iv). }
  split.
  { subst s3 t. js_eval.
    rewrite (lookup_app_found nh _ _ (CycleCb Paper)) by now apply lookup_new.
    simpl. rewrite (set_cell_older nh iv) by assumption.
    now rewrite (clear_new (S nh) (iv ++ [(nh, CycleCb Scissors)])). }
  split.
  { unfold written. simpl. rewrite !concat_app. simpl.
    now rewrite <- !app_assoc. }
  split; [reflexivity |].
  split; [simpl; now rewrite (lookup_below (S nh) _ Hq2) |].
  intros n.
  apply (cycle_overrun_keeps_firing nh n Scissors t).
  - discriminate.
  - reflexivity.
  - simpl. now apply lookup_new.
  - unfold Scissors. lia.
Qed.

Lemma cycle_gestures_started_twice_overruns_witness :
  exists s1 s2 s3 t t',
    CycleGesturesAnimation_do opened = Ok tt s1
    /\ CycleGesturesAnimation_do s1 = Ok tt s2
    /\ fire 0%nat s2 = Ok tt s3
    /\ fire 0%nat s3 = Ok tt t
    /\ run t (repeat (ETick 0%nat) 3) = Some t'
    /\ written t' = [0; 0; 1; 2; 3; 4; 5]
    /\ enabled t' (ETick 0%nat) = true.
Proof.
  destruct (cycle_gestures_started_twice_overruns opened [] eq_refl
              (Forall_nil _))
    as (s1 & s2 & s3 & t & H1 & H2 & H3 & H4 & H5 & _ & _ & Hn).
  destruct (Hn 3%nat) as (t' & Hr & Hw & He).
  exists s1, s2, s3, t, t'.
  repeat (split; [assumption |]).
  split; [| exact He].
  rewrite Hw, H5. reflexivity.
Defined.

(** ** The period of the finger wave *)

(** X9.  Wherever the index stands, five firings of the wave's interval bring
    it back to the same finger, and the ten bytes they write are the ten
    finger codes 5 to 14, each exactly once: in every period each finger is
    curled once and relaxed once. *)
Theorem finger_wave_period :
  forall (h : Handle) (f : Finger) (t : State),
    serial t <> None ->
    lookup h (intervals t) = Some (FingerCb (finger_index f)) ->
    exists t',
      run t (repeat (ETick h) 5) = Some t'
      /\ lookup h (intervals t') = Some (FingerCb (finger_index f))
      /\ written t' = written t ++ wave f 5
      /\ length (wave f 5) = 10%nat
      /\ forall c, 5 <= c <= 14 ->
                   length (filter (Z.eqb c) (wave f 5)) = 1%nat.
Proof.
  intros h f t Hw Hl.
  destruct (finger_wave_keeps_running h 5 f t Hw Hl)
    as (t' & Hrun & Hwr & _ & Hl' & _ & _).
  exists t'. split; [exact Hrun |].
  split; [rewrite Hl'; destruct f; reflexivity |].
  split; [exact Hwr |].
  split; [reflexivity |].
  intros c Hc.
  assert (Hv : c = 5 \/ c = 6 \/ c = 7 \/ c = 8 \/ c = 9 \/ c = 10
               \/ c = 11 \/ c = 12 \/ c = 13 \/ c = 14) by lia.
  destruct f; repeat (destruct Hv as [Hv | Hv]); subst c; reflexivity.
Qed.

Lemma finger_wave_period_witness :
  exists t',
    run (mkState (Some []) None None (Some 0%nat) None
                 [(0%nat, FingerCb 2)] 1%nat [])
        (repeat (ETick 0%nat) 5) = Some t'
    /\ lookup 0%nat (intervals t') = Some (FingerCb 2)
    /\ written t' = [8; 11; 10; 13; 12; 5; 14; 7; 6; 9].
Proof.
  destruct (finger_wave_period 0%nat Middle
              (mkState (Some []) None None (Some 0%nat) None
                       [(0%nat, FingerCb 2)] 1%nat []))
    as (t' & Hr & Hl & Hw & _); [discriminate | reflexivity |].
  exists t'. repeat split; assumption.
Defined.

(** ** What holds in every store the object can reach *)

(** X10.  In a run of the opened object nothing ever throws: every method call
    returns and every firing of a live interval runs to its end, so the run
    can always be continued by any enabled event. *)
Theorem reachable_steps_never_throw :
  forall (evs : list Event) (s : State) (e : Event),
    run opened evs = Some s ->
    enabled s e = true ->
    exists s', step e s = Ok tt s' /\ run opened (evs ++ [e]) = Some s'.
Proof.
  intros evs s e Hr He.
  destruct (step_preserves_Inv s e (reachable_Inv evs s Hr) He)
    as (s' & Hs & _).
  exists s'. split; [exact Hs |].
  rewrite run_app, Hr. simpl. now rewrite He, Hs.
Qed.

Lemma reachable_steps_never_throw_witness :
  exists s s',
    run opened [EIdle; ETick 0%nat] = Some s
    /\ step EGameStart s = Ok tt s'
    /\ run opened ([EIdle; ETick 0%nat] ++ [EGameStart]) = Some s'.
Proof.
  destruct (run opened [EIdle; ETick 0%nat]) as [s |] eqn:E;
    [| vm_compute in E; discriminate E].
  destruct (reachable_steps_never_throw _ s EGameStart E eq_refl)
    as (s' & H1 & H2).
  exists s, s'. repeat split; assumption.
Defined.

(** X11.  In every store reached by a run of the opened object, each live
    interval is owned: the rotation closure is the one in [idleTimer], a
    finger-wave closure the one in the wave's timer field, with its index
    between 0 and 4 and the wave at [idleCurrent], a gesture-cycle closure
    the one in the cycle's timer field, before its last step and with the
    cycle at [idleCurrent].  Each timer field that is set names a live
    interval of its own kind.  Handles are pairwise different and were all
    handed out before the next one to come: no interval is ever lost. *)
Theorem every_interval_is_owned :
  forall (evs : list Event) (s : State),
    run opened evs = Some s ->
    (forall h cb, In (h, cb) (intervals s) ->
       match cb with
       | RotateCb => idleTimer s = Some h
       | FingerCb f =>
           fw_timer s = Some h /\ 0 <= f < 5 /\ idleCurrent s = Some 0
       | CycleCb a =>
           cg_timer s = Some h /\ Rock <= a < Scissors
           /\ idleCurrent s = Some 2
       end)
    /\ (forall h, idleTimer s = Some h ->
                  lookup h (intervals s) = Some RotateCb)
    /\ (forall h, fw_timer s = Some h ->
                  exists f, lookup h (intervals s) = Some (FingerCb f))
    /\ (forall h, cg_timer s = Some h ->
                  exists a, lookup h (intervals s) = Some (CycleCb a))
    /\ NoDup (map fst (intervals s))
    /\ handles_below (next_handle s) (intervals s).
Proof.
  intros evs s Hr. pose proof (reachable_Inv evs s Hr) as HI.
  unfold handles_below, Rock, Scissors.
  destruct HI; simpl; repeat split; intros;
    repeat match goal with
           | H : _ \/ _ |- _ => destruct H
           | H : (_, _) = (_, _) |- _ => injection H as <- <-
           | H : Some _ = Some _ |- _ => injection H as <-
           | H : False |- _ => destruct H
           | H : None = Some _ |- _ => discriminate H
           end;
    simpl; decide_handles;
    try (repeat split; (reflexivity || lia));
    try (eexists; reflexivity);
    repeat constructor; simpl; try lia; intuition lia.
Qed.

Lemma every_interval_is_owned_witness :
  exists s,
    run opened [EIdle; ETick 0%nat; ETick 1%nat; EIdle] = Some s
    /\ NoDup (map fst (intervals s))
    /\ handles_below (next_handle s) (intervals s).
Proof.
  destruct (run opened [EIdle; ETick 0%nat; ETick 1%nat; EIdle])
    as [s |] eqn:E; [| vm_compute in E; discriminate E].
  destruct (every_interval_is_owned _ s E) as (_ & _ & _ & _ & H1 & H2).
  exists s. repeat split; assumption.
Defined.

(** ** The rotation *)

(** X12.  In every store reached by a run of the opened object in which the
    rotation is scheduled, its interval is live and a firing returns.  It
    moves [idleCurrent] to 0 when no animation was started yet and otherwise
    by one modulo 3, in the order finger wave, wrist turn, gesture cycle and
    wave again; it invokes [cleanup] of the animation left, if any, and
    then [do] of the animation reached, which is the only one running
    afterwards.  It writes [Rock], the first byte of the wave and of the
    cycle, except when it leaves the wave for the wrist turn: then it
    writes [Paper] and the wrist-turn code.  The rotation stays
    scheduled. *)
Theorem rotation_advances_cyclically :
  forall (evs : list Event) (s : State) (h0 : Handle),
    run opened evs = Some s ->
    idleTimer s = Some h0 ->
    exists (s' : State) (a : Anim),
      enabled s (ETick h0) = true
      /\ fire h0 s = Ok tt s'
      /\ idleTimer s' = Some h0
      /\ idleCurrent s'
         = Some (match idleCurrent s with
                 | None => 0
                 | Some i => (i + 1) mod 3
                 end)
      /\ nth_error idleAnimations (Z.to_nat (num (idleCurrent s'))) = Some a
      /\ calls s'
         = calls s
           ++ match idleCurrent s with
              | Some i =>
                  [CallCleanup (nth (Z.to_nat i) idleAnimations FingerWave)]
              | None => []
              end
           ++ [CallDo a]
      /\ running (calls s') = [a]
      /\ written s'
         = written s
           ++ match idleCurrent s with
              | Some 0 => [Paper; code TurnWristCmd]
              | _ => [Rock]
              end.
Proof.
  intros evs s h0 Hr Ht. pose proof (reachable_Inv evs s Hr) as HI.
  destruct HI as [w n cl ? Hrun | w h n cl ? ? Hrun
                 | w h h1 f n cl ? ? ? Hrun | w h n cl ? ? Hrun
                 | w h h2 c n cl ? ? ? Hrun | w h n cl ? ? Hrun];
    simpl in Ht; try discriminate Ht; injection Ht as ->;
    unfold written; js_eval; decide_handles;
    eexists; eexists;
    (split; [reflexivity |]); (split; [reflexivity |]);
    (split; [reflexivity |]); (split; [reflexivity |]);
    (split; [reflexivity |]);
    simpl; rewrite ?running_snoc, Hrun; simpl;
    rewrite ?concat_app, <- ?app_assoc; simpl;
    repeat split.
Qed.

Lemma rotation_advances_cyclically_witness :
  exists s s',
    run opened [EIdle; ETick 0%nat; ETick 0%nat; ETick 0%nat] = Some s
    /\ idleCurrent s = Some 2
    /\ fire 0%nat s = Ok tt s'
    /\ idleCurrent s' = Some ((2 + 1) mod 3)
    /\ running (calls s') = [FingerWave].
Proof.
  destruct (run opened [EIdle; ETick 0%nat; ETick 0%nat; ETick 0%nat])
    as [s |] eqn:E; [| vm_compute in E; discriminate E].
  assert (Hc : idleCurrent s = Some 2 /\ idleTimer s = Some 0%nat)
    by (vm_compute in E; injection E as <-; split; reflexivity).
  destruct Hc as [Hc Ht].
  destruct (rotation_advances_cyclically _ s 0%nat E Ht)
    as (s' & a & _ & Hf & _ & Hi & Ha & _ & Hrun & _).
  rewrite Hc in Hi. rewrite Hi in Ha. injection Ha as <-.
  exists s, s'. repeat split; assumption.
Defined.

(** ** The bytes on the wire *)

Lemma step_writes_protocol_bytes (s : State) (e : Event) :
  Inv s -> enabled s e = true -> move_event e = true ->
  exists s' bs,
    step e s = Ok tt s'
    /\ written s' = written s ++ bs
    /\ forallb protocol_byte bs = true.
Proof.
  intros HI He Hm.
  destruct HI as [w n cl ? Hrun | w h n cl ? ? Hrun
                 | w h h1 f n cl ? Hf ? Hrun | w h n cl ? ? Hrun
                 | w h h2 c n cl ? Hc ? Hrun | w h n cl ? ? Hrun];
    destruct e; simpl in He, Hm; unfold Rock, Scissors in Hm;
    try (apply andb_true_iff in Hm as [Hm1 Hm2];
         apply Z.leb_le in Hm1; apply Z.leb_le in Hm2;
         assert (Ha : action = 0 \/ action = 1 \/ action = 2) by lia;
         destruct Ha as [-> | [-> | ->]]);
    try (assert (Hf' : f = 0 \/ f = 1 \/ f = 2 \/ f = 3 \/ f = 4) by lia;
         destruct Hf' as [-> | [-> | [-> | [-> | ->]]]]);
    try (assert (Hc' : c = 0 \/ c = 1) by lia; destruct Hc' as [-> | ->]);
    unfold written; js_eval; decide_handles; try discriminate He;
    simpl; decide_handles;
    eexists; eexists; (split; [reflexivity |]);
    simpl; rewrite ?concat_app; simpl; rewrite <- ?app_assoc; simpl;
    first [ split; [reflexivity | reflexivity]
          | split; [symmetry; apply app_nil_r | reflexivity] ].
Qed.

Lemma run_writes_protocol_bytes (evs : list Event) :
  forall s s',
    Inv s -> forallb protocol_byte (written s) = true ->
    forallb move_event evs = true ->
    run s evs = Some s' ->
    forallb protocol_byte (written s') = true.
Proof.
  induction evs as [| e evs IH]; intros s s' HI Hb Hm Hr; simpl in Hr, Hm.
  - now injection Hr as <-.
  - apply andb_true_iff in Hm as [Hm1 Hm2].
    destruct (enabled s e) eqn:He; [| discriminate].
    destruct (step_writes_protocol_bytes s e HI He Hm1)
      as (s1 & bs & Hs & Hw & Hbs).
    destruct (step_preserves_Inv s e HI He) as (s1' & Hs' & HI1).
    rewrite Hs in Hs'. injection Hs' as <-.
    rewrite Hs in Hr. apply (IH s1 s' HI1); try assumption.
    rewrite Hw, forallb_app, Hb, Hbs. reflexivity.
Qed.

(** X13.  In a run of the opened object in which [shoot] is only given members
    of [RPSAction], every byte written is a byte of the protocol: a move
    code 0 to 2, the wrist turn 4 or a finger code 5 to 14.  The closures of
    the animations never compute a code outside these, and the byte 3 is
    never sent. *)
Theorem only_protocol_bytes_written :
  forall (evs : list Event) (s : State),
    run opened evs = Some s ->
    forallb move_event evs = true ->
    forallb protocol_byte (written s) = true.
Proof.
  intros evs s Hr Hm.
  exact (run_writes_protocol_bytes evs opened s Inv_opened eq_refl Hm Hr).
Qed.

Lemma only_protocol_bytes_written_witness :
  exists s,
    run opened [EIdle; ETick 0%nat; ETick 1%nat; ETick 1%nat; EGameStart;
                ECountdown 0; EShoot Scissors] = Some s
    /\ forallb protocol_byte (written s) = true.
Proof.
  destruct (run opened [EIdle; ETick 0%nat; ETick 1%nat; ETick 1%nat;
                        EGameStart; ECountdown 0; EShoot Scissors])
    as [s |] eqn:E; [| vm_compute in E; discriminate E].
  exists s. split; [reflexivity |].
  exact (only_protocol_bytes_written _ s E eq_refl).
Defined.

(** ** Teardown, up to its first await *)

(** X14.  In every store reached by a run of the opened object, the part of
    [cleanup] that runs at the call returns.  It leaves no interval live,
    no animation running and the rotation unscheduled, and the last byte it
    writes is [Paper]; when the finger wave was running, the wave's own
    [cleanup] has written a [Paper] just before, so that two go out.  If
    the run goes on from there without a call of [idle], no interval fires
    any more. *)
Theorem teardown_stops_idle_then_sends :
  forall (pre : list Event) (s : State),
    run opened pre = Some s ->
    exists s1,
      ArduinoOutput_cleanup_sync s = Ok tt s1
      /\ intervals s1 = [] /\ idleTimer s1 = None /\ idleCurrent s1 = None
      /\ running (calls s1) = []
      /\ written s1
         = written s
           ++ (if existsb (anim_eqb FingerWave) (running (calls s))
               then [Paper] else [])
           ++ [Paper]
      /\ forall (post : list Event) (s2 : State),
           forallb not_idle post = true ->
           run s1 post = Some s2 ->
           forallb not_tick post = true /\ intervals s2 = [].
Proof.
  intros pre s Hr. pose proof (reachable_Inv pre s Hr) as HI.
  assert (H : exists s1,
             ArduinoOutput_cleanup_sync s = Ok tt s1
             /\ intervals s1 = [] /\ idleTimer s1 = None
             /\ idleCurrent s1 = None /\ running (calls s1) = []
             /\ written s1
                = written s
                  ++ (if existsb (anim_eqb FingerWave) (running (calls s))
                      then [Paper] else [])
                  ++ [Paper]
             /\ Inv s1).
  { destruct HI as [w n cl ? Hrun | w h0 n cl ? ? Hrun
                   | w h0 h1 f n cl ? ? ? Hrun | w h0 n cl ? ? Hrun
                   | w h0 h2 c n cl ? ? ? Hrun | w h0 n cl ? ? Hrun];
      unfold ArduinoOutput_cleanup_sync, written; js_eval; decide_handles;
      eexists; (split; [reflexivity |]);
      simpl; rewrite ?running_snoc, Hrun; simpl;
      rewrite ?concat_app, <- ?app_assoc; simpl;
      repeat (split; [reflexivity |]); show_Inv. }
  destruct H as (s1 & H1 & H2 & H3 & H4 & H5 & H6 & HI1).
  exists s1. repeat (split; [assumption |]).
  intros post s2 Hi Hrun.
  exact (quiet_run post s1 s2 HI1 H2 Hi Hrun).
Qed.

Lemma teardown_stops_idle_then_sends_witness :
  exists s s1,
    run opened [EIdle; ETick 0%nat; ETick 1%nat] = Some s
    /\ ArduinoOutput_cleanup_sync s = Ok tt s1
    /\ intervals s1 = []
    /\ written s1 = [Paper; Rock; 12; 5; Paper; Paper].
Proof.
  destruct (run opened [EIdle; ETick 0%nat; ETick 1%nat]) as [s |] eqn:E;
    [| vm_compute in E; discriminate E].
  destruct (teardown_stops_idle_then_sends _ s E)
    as (s1 & H1 & H2 & _ & _ & _ & H6 & _).
  exists s, s1. repeat (split; [assumption || reflexivity |]).
  rewrite H6. vm_compute in E. injection E as <-. reflexivity.
Defined.

(** ** Idle mode entered again *)

Lemma run_cons_ok (s s' : State) (e : Event) (r : list Event) :
  enabled s e = true -> step e s = Ok tt s' -> run s (e :: r) = run s' r.
Proof. intros He Hs. simpl. now rewrite He, Hs. Qed.

(** X15.  The rotation does not resume where it was stopped.  From every store
    reached by a run of the opened object, [gameStart], then [idle], then
    the first firing of the new rotation interval start the finger wave,
    the first animation, whichever animation was running before; the new
    interval has a handle that was never used. *)
Theorem rotation_restarts_from_first :
  forall (pre : list Event) (s : State),
    run opened pre = Some s ->
    exists s3,
      run s [EGameStart; EIdle; ETick (next_handle s)] = Some s3
      /\ lookup (next_handle s) (intervals s) = None
      /\ idleTimer s3 = Some (next_handle s)
      /\ idleCurrent s3 = Some 0
      /\ running (calls s3) = [FingerWave]
      /\ written s3
         = written s
           ++ (if existsb (anim_eqb FingerWave) (running (calls s))
               then [Paper] else [])
           ++ [Rock; Paper; Rock].
Proof.
  intros pre s Hr. pose proof (reachable_Inv pre s Hr) as HI.
  destruct HI as [w n cl ? Hrun | w h0 n cl ? ? Hrun
                 | w h0 h1 f n cl ? ? ? Hrun | w h0 n cl ? ? Hrun
                 | w h0 h2 c n cl ? ? ? Hrun | w h0 n cl ? ? Hrun];
    cbn [next_handle intervals calls];
    eexists;
    (split;
     [ erewrite run_cons_ok;
       [| reflexivity | js_eval; decide_handles; reflexivity];
       erewrite run_cons_ok;
       [| reflexivity | js_eval; reflexivity];
       erewrite run_cons_ok;
       [| cbn [enabled intervals lookup]; decide_handles; reflexivity
        | js_eval; decide_handles; reflexivity];
       reflexivity |]);
    unfold written; simpl; decide_handles;
    rewrite ?running_snoc, Hrun; simpl;
    rewrite ?concat_app, <- ?app_assoc; simpl;
    repeat split.
Qed.

Lemma rotation_restarts_from_first_witness :
  exists s s3,
    run opened [EIdle; ETick 0%nat; ETick 0%nat] = Some s
    /\ idleCurrent s = Some 1
    /\ run s [EGameStart; EIdle; ETick (next_handle s)] = Some s3
    /\ idleCurrent s3 = Some 0.
Proof.
  destruct (run opened [EIdle; ETick 0%nat; ETick 0%nat]) as [s |] eqn:E;
    [| vm_compute in E; discriminate E].
  destruct (rotation_restarts_from_first _ s E)
    as (s3 & H1 & _ & _ & H4 & _).
  exists s, s3. split; [reflexivity |].
  split; [vm_compute in E; injection E as <-; reflexivity |].
  split; assumption.
Defined.
